(** * AthenaK mesh blocks: boundary flags and the neighbour table

    A shallow embedding of [src/mesh/meshblock.cpp]: the [MeshBlock]
    constructor, which classifies the six faces of every block of a pack, and
    [MeshBlock::SetNeighbors], which searches the block tree in up to 26
    directions and fills the neighbour table.

    C++ [int] and [std::int32_t] values are integers of [Z]; the one
    arithmetic operation that can leave the 32-bit range, the left shift that
    computes the number of blocks along an axis, has its wrap-around written
    out.  Raw pointers used as arrays ([int *ranklist],
    [LogicalLocation *lloclist]) carry no extent in C++ and are functions of
    the index.  Kokkos arrays have an extent and are lists.  Member functions
    that assign to the fields of the object run in a small state monad. *)

From stdpp Require Import base numbers list.

Local Open Scope Z_scope.

(** ** Data *)

(** [LogicalLocation]: integer coordinates of a block in the tree. *)
Record LogicalLocation : Type := {
  lx1 : Z;
  lx2 : Z;
  lx3 : Z;
  level : Z
}.

(** The six faces of the mesh, in the order of their enumerator values 0..5,
    which the constructor also uses as the second index of [mbbcs]. *)
Inductive BoundaryFace : Type :=
| inner_x1 | outer_x1 | inner_x2 | outer_x2 | inner_x3 | outer_x3.

(** Modelled from the spec: the declaration of the enumeration (athena.hpp)
    is not among the sources.  The constructor names only [block]; the spec
    speaks of a face being "block" or "physical" with a configured kind, and
    of periodic axes. *)
Inductive BoundaryFlag : Type :=
| undef | block | reflect | inflow | outflow | diode | user | periodic.

Global Instance BoundaryFlag_eq_dec : EqDecision BoundaryFlag.
Proof. solve_decision. Defined.

(** One slot of the neighbour table. *)
Record NeighborBlock : Type := {
  gid : Z;
  lev : Z;
  rank : Z;
  destn : Z
}.

Global Instance NeighborBlock_eq_dec : EqDecision NeighborBlock.
Proof. solve_decision. Defined.

(** The value of a slot that holds no neighbour. *)
Definition no_neighbor : NeighborBlock :=
  {| gid := -1; lev := -1; rank := -1; destn := -1 |}.

(** A 32-bit IEEE value kept as its bit pattern; the cost array is only
    allocated here, never computed with. *)
Inductive float : Type := float_bits (b : Z).

(** The fields of [Mesh] that the two functions read. *)
Record Mesh : Type := {
  one_d : bool;
  two_d : bool;
  three_d : bool;
  multi_d : bool;
  nx2 : Z;                              (* mesh_indcs.nx2 *)
  nx3 : Z;                              (* mesh_indcs.nx3 *)
  nmb_rootx1 : Z;
  nmb_rootx2 : Z;
  nmb_rootx3 : Z;
  root_level : Z;
  mesh_bcs : BoundaryFace -> BoundaryFlag;
  lloclist : Z -> LogicalLocation
}.

(** A node of the block tree.  [pleaf_] is the array of children, [None]
    for the null pointer of a leaf. *)
#[local] Set Warnings "-register-all".
Inductive MeshBlockTree : Type :=
| TreeNode (loc_ : LogicalLocation) (gid_ : Z)
           (pleaf_ : option (list MeshBlockTree)).

Definition loc_ (t : MeshBlockTree) : LogicalLocation :=
  match t with TreeNode l _ _ => l end.
Definition gid_ (t : MeshBlockTree) : Z :=
  match t with TreeNode _ g _ => g end.
Definition pleaf_ (t : MeshBlockTree) : option (list MeshBlockTree) :=
  match t with TreeNode _ _ c => c end.

(** ** Kokkos arrays *)

(** A [DualView]: a host copy, a device copy and the mark left by
    [modify<HostMemSpace>()]. *)
Record DualArray (A : Type) : Type := {
  h_view : A;
  d_view : A;
  modified_host : bool
}.
Arguments h_view {A} _.
Arguments d_view {A} _.
Arguments modified_host {A} _.

Definition dual_alloc {A} (a : A) : DualArray A :=
  {| h_view := a; d_view := a; modified_host := false |}.

Definition dual_write_host {A} (f : A -> A) (d : DualArray A) : DualArray A :=
  {| h_view := f (h_view d); d_view := d_view d;
     modified_host := modified_host d |}.

Definition dual_modify_host {A} (d : DualArray A) : DualArray A :=
  {| h_view := h_view d; d_view := d_view d; modified_host := true |}.

(** [sync<DevExeSpace>()] copies the host view to the device when the host
    copy is marked, and clears the mark. *)
Definition dual_sync_device {A} (d : DualArray A) : DualArray A :=
  if modified_host d
  then {| h_view := h_view d; d_view := h_view d; modified_host := false |}
  else d.

(** The device copy agrees with the host copy and nothing is pending. *)
Definition in_sync {A} (d : DualArray A) : Prop :=
  d_view d = h_view d /\ modified_host d = false.

(** Element access.  Inside the extent these are the C++ accesses; an index
    outside the extent has no defined C++ behaviour, and here leaves the
    array as it is (a write) or yields the given default (a read). *)
Definition wr1 {A} (i : Z) (f : A -> A) (a : list A) : list A :=
  if i <? 0 then a else alter f (Z.to_nat i) a.

Definition wr2 {A} (i j : Z) (f : A -> A) (a : list (list A)) : list (list A) :=
  wr1 i (wr1 j f) a.

Definition rd1 {A} (dflt : A) (a : list A) (i : Z) : A :=
  if i <? 0 then dflt else default dflt (a !! Z.to_nat i).

Definition rd2 {A} (dflt : A) (a : list (list A)) (i j : Z) : A :=
  rd1 dflt (rd1 [] a i) j.

(** The object. *)
Record MeshBlock : Type := {
  pmesh : Mesh;                          (* pmy_pack->pmesh *)
  nmb : Z;
  mbgid : DualArray (list Z);
  mblev : DualArray (list Z);
  mbbcs : list (list BoundaryFlag);
  mbcost : list float;
  nnghbr : Z;
  nghbr : DualArray (list (list NeighborBlock))
}.

(** ** 32-bit arithmetic *)

Definition wrap32 (z : Z) : Z := (z + 2 ^ 31) mod 2 ^ 32 - 2 ^ 31.

(** [a << k] on [int]. *)
Definition shl32 (a k : Z) : Z := wrap32 (Z.shiftl a k).

(** ** The state monad of member functions *)

(** What a member function can change: the object itself, and, as a ghost
    record for the statements about queries, the list of the tree searches
    issued so far. *)
Record World : Type := {
  this : MeshBlock;
  searches : list (LogicalLocation * (Z * Z * Z))
}.

Definition M (A : Type) : Type := World -> A * World.

Definition ret {A} (a : A) : M A := fun w => (a, w).

Definition bind {A B} (c : M A) (k : A -> M B) : M B :=
  fun w => let (a, w') := c w in k a w'.

Declare Scope prog_scope.
Delimit Scope prog_scope with prog.
Bind Scope prog_scope with M.

Notation "x <- c1 ;; c2" := (bind c1 (fun x => c2))
  (at level 100, c1 at next level, right associativity) : prog_scope.
Notation "c1 ;; c2" := (bind c1 (fun _ => c2))
  (at level 100, c2 at level 200, right associativity) : prog_scope.

Definition exec {A} (c : M A) (w : World) : World := snd (c w).

(** Change the object, leave the ghost record. *)
Definition update (f : MeshBlock -> MeshBlock) : M unit :=
  fun w => (tt, {| this := f (this w); searches := searches w |}).

Definition read {A} (f : MeshBlock -> A) : M A :=
  fun w => (f (this w), w).

(** [for (x : l) body]. *)
Fixpoint for_each (l : list Z) (body : Z -> M unit) : M unit :=
  match l with
  | [] => ret tt
  | x :: l' => (body x ;; for_each l' body)%prog
  end.

(** [for (int m=0; m<n; ++m)] visits [seqZ 0 n];
    [for (int n=-1; n<=1; n+=2)] visits [pm1]. *)
Definition pm1 : list Z := [-1; 1].

(** Field assignments. *)
Definition with_mbgid (f : DualArray (list Z) -> DualArray (list Z))
    (mb : MeshBlock) : MeshBlock :=
  {| pmesh := pmesh mb; nmb := nmb mb; mbgid := f (mbgid mb);
     mblev := mblev mb; mbbcs := mbbcs mb; mbcost := mbcost mb;
     nnghbr := nnghbr mb; nghbr := nghbr mb |}.

Definition with_mblev (f : DualArray (list Z) -> DualArray (list Z))
    (mb : MeshBlock) : MeshBlock :=
  {| pmesh := pmesh mb; nmb := nmb mb; mbgid := mbgid mb;
     mblev := f (mblev mb); mbbcs := mbbcs mb; mbcost := mbcost mb;
     nnghbr := nnghbr mb; nghbr := nghbr mb |}.

Definition with_mbbcs (f : list (list BoundaryFlag) -> list (list BoundaryFlag))
    (mb : MeshBlock) : MeshBlock :=
  {| pmesh := pmesh mb; nmb := nmb mb; mbgid := mbgid mb;
     mblev := mblev mb; mbbcs := f (mbbcs mb); mbcost := mbcost mb;
     nnghbr := nnghbr mb; nghbr := nghbr mb |}.

Definition with_nnghbr (n : Z) (mb : MeshBlock) : MeshBlock :=
  {| pmesh := pmesh mb; nmb := nmb mb; mbgid := mbgid mb;
     mblev := mblev mb; mbbcs := mbbcs mb; mbcost := mbcost mb;
     nnghbr := n; nghbr := nghbr mb |}.

Definition with_nghbr
    (f : DualArray (list (list NeighborBlock)) ->
         DualArray (list (list NeighborBlock)))
    (mb : MeshBlock) : MeshBlock :=
  {| pmesh := pmesh mb; nmb := nmb mb; mbgid := mbgid mb;
     mblev := mblev mb; mbbcs := mbbcs mb; mbcost := mbcost mb;
     nnghbr := nnghbr mb; nghbr := f (nghbr mb) |}.

(** ** Running programs *)

Lemma exec_ret {A} (a : A) (w : World) : exec (ret a) w = w.
Proof. reflexivity. Qed.

Lemma exec_bind {A B} (c : M A) (k : A -> M B) (w : World) :
  exec (bind c k) w = exec (k (fst (c w))) (snd (c w)).
Proof. unfold exec, bind. destruct (c w); reflexivity. Qed.

Lemma exec_seq (c1 : M unit) {B} (c2 : M B) (w : World) :
  exec (c1 ;; c2)%prog w = exec c2 (exec c1 w).
Proof. apply exec_bind. Qed.

Lemma exec_read {A B} (f : MeshBlock -> A) (k : A -> M B) (w : World) :
  exec (bind (read f) k) w = exec (k (f (this w))) w.
Proof. reflexivity. Qed.

Lemma exec_update (f : MeshBlock -> MeshBlock) (w : World) :
  exec (update f) w = {| this := f (this w); searches := searches w |}.
Proof. reflexivity. Qed.

Lemma exec_for_each (l : list Z) (body : Z -> M unit) (w : World) :
  exec (for_each l body) w = fold_left (fun w x => exec (body x) w) l w.
Proof.
  revert w. induction l as [|x l IH]; intros w; [reflexivity|].
  cbn [for_each fold_left]. rewrite exec_seq. apply IH.
Qed.

Lemma exec_if {A} (c : bool) (p q : M A) (w : World) :
  exec (if c then p else q) w = if c then exec p w else exec q w.
Proof. destruct c; reflexivity. Qed.

(** A property kept by every step of a loop is kept by the loop. *)
Lemma fold_left_preserves {S X} (P : S -> Prop) (f : S -> X -> S) (l : list X) :
  (forall s x, P s -> P (f s x)) -> forall s, P s -> P (fold_left f l s).
Proof.
  intros Hf. induction l as [|x l IH]; intros s Hs; [exact Hs|].
  cbn. apply IH, Hf, Hs.
Qed.

(** ** Array cells *)

(** The element at row [i], column [j], when the array has one. *)
Definition cell {A} (a : list (list A)) (i j : Z) : option A :=
  if (i <? 0) || (j <? 0) then None
  else match a !! Z.to_nat i with
       | Some r => r !! Z.to_nat j
       | None => None
       end.

Lemma wr1_length {A} (i : Z) (f : A -> A) (a : list A) :
  length (wr1 i f a) = length a.
Proof. unfold wr1. destruct (i <? 0); [reflexivity|]. apply length_alter. Qed.

Lemma wr1_wr1 {A} (i : Z) (f g : A -> A) (a : list A) :
  wr1 i f (wr1 i g a) = wr1 i (f ∘ g) a.
Proof.
  unfold wr1. destruct (i <? 0); [reflexivity|]. apply list_alter_alter_eq.
Qed.

Lemma wr1_ext {A} (i : Z) (f g : A -> A) (a : list A) :
  (forall x, f x = g x) -> wr1 i f a = wr1 i g a.
Proof.
  intros H. unfold wr1. destruct (i <? 0); [reflexivity|].
  apply list_alter_ext; auto.
Qed.

Lemma wr2_wr2 {A} (i j : Z) (f g : A -> A) (a : list (list A)) :
  wr2 i j f (wr2 i j g a) = wr2 i j (f ∘ g) a.
Proof.
  unfold wr2. rewrite wr1_wr1. apply wr1_ext. intros r. apply wr1_wr1.
Qed.

Lemma wr2_ext {A} (i j : Z) (f g : A -> A) (a : list (list A)) :
  (forall x, f x = g x) -> wr2 i j f a = wr2 i j g a.
Proof. intros H. unfold wr2. apply wr1_ext. intros r. apply wr1_ext, H. Qed.

Lemma wr2_length {A} (i j : Z) (f : A -> A) (a : list (list A)) :
  length (wr2 i j f a) = length a.
Proof. apply wr1_length. Qed.

Lemma wr1_lookup {A} (i : Z) (f : A -> A) (a : list A) (k : nat) :
  wr1 i f a !! k =
  if bool_decide (0 <= i /\ Z.to_nat i = k) then f <$> a !! k else a !! k.
Proof.
  unfold wr1. destruct (Z.ltb_spec i 0) as [Hi|Hi].
  - rewrite bool_decide_eq_false_2 by lia. reflexivity.
  - destruct (decide (Z.to_nat i = k)) as [<-|Hne].
    + rewrite bool_decide_eq_true_2 by lia. apply list_lookup_alter_eq.
    + rewrite bool_decide_eq_false_2 by lia. apply list_lookup_alter_ne, Hne.
Qed.

(** The rows keep their lengths. *)
Lemma wr2_row_length {A} (i j : Z) (f : A -> A) (a : list (list A)) (k : nat) :
  length <$> wr2 i j f a !! k = length <$> a !! k.
Proof.
  unfold wr2. rewrite wr1_lookup. case_bool_decide; [|reflexivity].
  destruct (a !! k) as [r|]; [|reflexivity]. cbn. f_equal. apply wr1_length.
Qed.

Lemma wr2_shape {A} (i j : Z) (f : A -> A) (a : list (list A)) :
  length <$> wr2 i j f a = length <$> a.
Proof.
  apply list_eq. intros k. rewrite !list_lookup_fmap. apply wr2_row_length.
Qed.

Lemma cell_wr2_eq {A} (i j : Z) (f : A -> A) (a : list (list A)) :
  cell (wr2 i j f a) i j = f <$> cell a i j.
Proof.
  unfold cell, wr2.
  destruct (Z.ltb_spec i 0) as [Hi|Hi]; [reflexivity|].
  destruct (Z.ltb_spec j 0) as [Hj|Hj]; [reflexivity|]. cbn [orb].
  rewrite wr1_lookup, bool_decide_eq_true_2 by lia.
  destruct (a !! Z.to_nat i) as [r|]; [|reflexivity]. cbn.
  rewrite wr1_lookup, bool_decide_eq_true_2 by lia. reflexivity.
Qed.

Lemma cell_wr2_ne {A} (i j i' j' : Z) (f : A -> A) (a : list (list A)) :
  (i, j) <> (i', j') -> cell (wr2 i j f a) i' j' = cell a i' j'.
Proof.
  intros Hne. unfold cell, wr2.
  destruct (Z.ltb_spec i' 0) as [Hi|Hi]; [reflexivity|].
  destruct (Z.ltb_spec j' 0) as [Hj|Hj]; [reflexivity|]. cbn [orb].
  rewrite wr1_lookup. case_bool_decide as Hi'; [|reflexivity].
  destruct (a !! Z.to_nat i') as [r|]; [|reflexivity]. cbn.
  rewrite wr1_lookup. case_bool_decide as Hj'; [|reflexivity].
  exfalso. apply Hne. f_equal; lia.
Qed.

Lemma cell_replicate {A} (n k : nat) (x : A) (i j : Z) :
  0 <= i < Z.of_nat n -> 0 <= j < Z.of_nat k ->
  cell (replicate n (replicate k x)) i j = Some x.
Proof.
  intros Hi Hj. unfold cell.
  destruct (Z.ltb_spec i 0); [lia|]. destruct (Z.ltb_spec j 0); [lia|].
  cbn [orb]. rewrite lookup_replicate_2 by lia. apply lookup_replicate_2. lia.
Qed.

(** A cell exists exactly inside the extents. *)
Lemma cell_is_Some {A} (a : list (list A)) (n k : nat) (i j : Z) :
  length a = n -> (forall r, r ∈ a -> length r = k) ->
  is_Some (cell a i j) <-> (0 <= i < Z.of_nat n /\ 0 <= j < Z.of_nat k).
Proof.
  intros Hn Hk. unfold cell.
  destruct (Z.ltb_spec i 0) as [Hi|Hi];
    [cbn; split; [intros [? ?]; discriminate | lia]|].
  destruct (Z.ltb_spec j 0) as [Hj|Hj];
    [cbn; split; [intros [? ?]; discriminate | lia]|].
  cbn [orb]. destruct (a !! Z.to_nat i) as [r|] eqn:Hr.
  - pose proof (lookup_lt_Some _ _ _ Hr) as Hlt.
    assert (length r = k) as Hlen
      by (apply Hk; apply list_elem_of_lookup; eauto).
    rewrite lookup_lt_is_Some. lia.
  - apply lookup_ge_None in Hr. split; [intros [? ?]; discriminate | lia].
Qed.

Lemma fold_left_bind {S X Y} (f : S -> Y -> S) (g : X -> list Y) (l : list X)
    (s : S) :
  fold_left f (l ≫= g) s = fold_left (fun s x => fold_left f (g x) s) l s.
Proof.
  revert s. induction l as [|x l IH]; intros s; [reflexivity|].
  cbn [mbind list_bind fold_left]. rewrite fold_left_app. apply IH.
Qed.

Lemma fold_left_ext_in {S X} (f g : S -> X -> S) (l : list X) (s : S) :
  (forall s x, x ∈ l -> f s x = g s x) -> fold_left f l s = fold_left g l s.
Proof.
  revert s. induction l as [|x l IH]; intros s H; [reflexivity|].
  cbn [fold_left]. rewrite (H s x) by apply list_elem_of_here.
  apply IH. intros s' x' Hx'. apply H, list_elem_of_further, Hx'.
Qed.
(** ** The constructor *)

Section Constructor.

(** What a newly allocated element of [mbbcs] holds; every element is
    assigned before the constructor returns. *)
Variable fresh_flag : BoundaryFlag.

Definition set_mbgid (m v : Z) : M unit :=
  update (with_mbgid (dual_write_host (wr1 m (fun _ => v)))).

Definition set_mblev (m v : Z) : M unit :=
  update (with_mblev (dual_write_host (wr1 m (fun _ => v)))).

Definition set_mbbcs (m k : Z) (v : BoundaryFlag) : M unit :=
  update (with_mbbcs (wr2 m k (fun _ => v))).

(** The member initialisers: [pmy_pack(ppack), nmb(nmb), mbgid("mbgid",nmb),
    mblev("mblev",nmb), mbbcs("mbbcs",nmb,6), mbcost("lbcost",nmb)].
    [nnghbr] has no initialiser and keeps what the storage held; [nghbr]
    is default-constructed, an empty view. *)
Definition init_members (pm : Mesh) (n : Z) : M unit :=
  update (fun mb =>
    {| pmesh := pm; nmb := n;
       mbgid := dual_alloc (replicate (Z.to_nat n) 0);
       mblev := dual_alloc (replicate (Z.to_nat n) 0);
       mbbcs := replicate (Z.to_nat n) (replicate 6%nat fresh_flag);
       mbcost := replicate (Z.to_nat n) (float_bits 0);
       nnghbr := nnghbr mb;
       nghbr := dual_alloc [] |}).

(** The body of the loop over the blocks of the pack. *)
Definition ctor_block (pm : Mesh) (igids m : Z) : M unit :=
  (set_mbgid m (igids + m) ;;
   set_mblev m (level (lloclist pm (igids + m))) ;;
   let lx1 := lx1 (lloclist pm (igids + m)) in
   let lev := level (lloclist pm (igids + m)) in
   let nmbx1 := shl32 (nmb_rootx1 pm) (lev - root_level pm) in
   (if lx1 =? 0
    then set_mbbcs m 0 (mesh_bcs pm inner_x1)
    else set_mbbcs m 0 block) ;;
   (if lx1 =? wrap32 (nmbx1 - 1)
    then set_mbbcs m 1 (mesh_bcs pm outer_x1)
    else set_mbbcs m 1 block) ;;
   (if nx2 pm =? 1
    then (set_mbbcs m 2 (mesh_bcs pm inner_x2) ;;
          set_mbbcs m 3 (mesh_bcs pm outer_x2))
    else
      let lx2 := lx2 (lloclist pm (igids + m)) in
      let nmbx2 := shl32 (nmb_rootx2 pm) (lev - root_level pm) in
      (if lx2 =? 0
       then set_mbbcs m 2 (mesh_bcs pm inner_x2)
       else set_mbbcs m 2 block) ;;
      (if lx2 =? wrap32 (nmbx2 - 1)
       then set_mbbcs m 3 (mesh_bcs pm outer_x2)
       else set_mbbcs m 3 block)) ;;
   (if nx3 pm =? 1
    then (set_mbbcs m 4 (mesh_bcs pm inner_x3) ;;
          set_mbbcs m 5 (mesh_bcs pm outer_x3))
    else
      let lx3 := lx3 (lloclist pm (igids + m)) in
      let nmbx3 := shl32 (nmb_rootx3 pm) (lev - root_level pm) in
      (if lx3 =? 0
       then set_mbbcs m 4 (mesh_bcs pm inner_x3)
       else set_mbbcs m 4 block) ;;
      (if lx3 =? wrap32 (nmbx3 - 1)
       then set_mbbcs m 5 (mesh_bcs pm outer_x3)
       else set_mbbcs m 5 block)))%prog.

(** [MeshBlock::MeshBlock(MeshBlockPack* ppack, int igids, int nmb)]. *)
Definition MeshBlock_ctor (pm : Mesh) (igids n : Z) : M unit :=
  (init_members pm n ;;
   for_each (seqZ 0 n) (ctor_block pm igids) ;;
   update (with_mbgid dual_modify_host) ;;
   update (with_mblev dual_modify_host) ;;
   update (with_mbgid dual_sync_device) ;;
   update (with_mblev dual_sync_device))%prog.

End Constructor.

(** ** Axes and faces *)

Inductive Axis : Type := X1 | X2 | X3.

Definition inner (a : Axis) : BoundaryFace :=
  match a with X1 => inner_x1 | X2 => inner_x2 | X3 => inner_x3 end.
Definition outer (a : Axis) : BoundaryFace :=
  match a with X1 => outer_x1 | X2 => outer_x2 | X3 => outer_x3 end.
Definition coord (a : Axis) (loc : LogicalLocation) : Z :=
  match a with X1 => lx1 loc | X2 => lx2 loc | X3 => lx3 loc end.
Definition nmb_root (a : Axis) (pm : Mesh) : Z :=
  match a with
  | X1 => nmb_rootx1 pm | X2 => nmb_rootx2 pm | X3 => nmb_rootx3 pm
  end.

(** The number of blocks along an axis at a level, [nmbRoot * 2^(level -
    rootLevel)]. *)
Definition extent (pm : Mesh) (a : Axis) (ll : Z) : Z :=
  nmb_root a pm * 2 ^ (ll - root_level pm).

(** The place of a face in a row of [mbbcs]. *)
Definition face_index (f : BoundaryFace) : Z :=
  match f with
  | inner_x1 => 0 | outer_x1 => 1 | inner_x2 => 2
  | outer_x2 => 3 | inner_x3 => 4 | outer_x3 => 5
  end.

(** The constructor treats x2 and x3 as degenerate when the mesh has one
    cell along them; x1 never is. *)
Definition degenerate (pm : Mesh) (a : Axis) : bool :=
  match a with X1 => false | X2 => nx2 pm =? 1 | X3 => nx3 pm =? 1 end.

(** A face of block [m] is classified physical when its flag is the
    condition configured for that face of the mesh, and block when its flag
    is [block]. *)
Definition physical (pm : Mesh) (mb : MeshBlock) (m : Z) (f : BoundaryFace)
    : Prop :=
  cell (mbbcs mb) m (face_index f) = Some (mesh_bcs pm f).

Definition is_block (mb : MeshBlock) (m : Z) (f : BoundaryFace) : Prop :=
  cell (mbbcs mb) m (face_index f) = Some block.

(** ** The block tree *)

Module BlockTree.

Definition periodic_axis (pm : Mesh) (a : Axis) : bool :=
  bool_decide (mesh_bcs pm (inner a) = periodic) &&
  bool_decide (mesh_bcs pm (outer a) = periodic).

(** What stands for a child that an array of children does not have. *)
Definition no_node : MeshBlockTree :=
  TreeNode {| lx1 := 0; lx2 := 0; lx3 := 0; level := -1 |} (-1) None.

(** Modelled from the spec: [MeshBlockTree::GetLeaf] is not among the
    sources.  "Internal: holds exactly 8 child references, indexed by octant
    (bit_x,bit_y,bit_z)"; the octant's place in the array is
    [bit_x + 2 bit_y + 4 bit_z]. *)
Definition GetLeaf (bt : MeshBlockTree) (ox1 ox2 ox3 : Z) : MeshBlockTree :=
  match pleaf_ bt with
  | Some cs => rd1 no_node cs (ox1 + 2 * ox2 + 4 * ox3)
  | None => no_node
  end.

(** Modelled from the spec: one coordinate of the neighbour's location.
    "adding the offset to the queried location's coordinates on each nonzero
    axis; if the resulting coordinate falls outside [0, nmbRoot *
    2^(level-rootLevel)) on a non-periodic axis, return null; if periodic,
    wrap modulo the root extent". *)
Definition shifted (pm : Mesh) (a : Axis) (ll x o : Z) : option Z :=
  if o =? 0 then Some x
  else if (0 <=? x + o) && (x + o <? extent pm a ll) then Some (x + o)
  else if periodic_axis pm a then Some ((x + o) mod extent pm a ll)
  else None.

(** The bit of [x] that selects the child when [k] bits remain below it. *)
Definition bit_at (k : nat) (x : Z) : Z := Z.land (Z.shiftr x (Z.of_nat k)) 1.

(** Modelled from the spec: the descent.  "descend the tree from the root
    matching bits of the computed location until either (a) a leaf is reached
    before exhausting the location's bits - that leaf is a coarser neighbor,
    return it directly; or (b) all bits are exhausted and an internal node
    remains - the true neighbor is finer".  A node reached with all bits
    exhausted is returned, leaf or not.  A missing child ends the search
    with null. *)
Fixpoint descend (bits : nat) (bt : MeshBlockTree) (x1 x2 x3 : Z)
    : option MeshBlockTree :=
  match bits with
  | O => Some bt
  | S k =>
      match pleaf_ bt with
      | None => Some bt
      | Some cs =>
          match cs !! Z.to_nat (bit_at k x1 + 2 * bit_at k x2 + 4 * bit_at k x3) with
          | Some c => descend k c x1 x2 x3
          | None => None
          end
      end
  end.

(** Modelled from the spec: [MeshBlockTree::FindNeighbor] is not among the
    sources.  The mesh stands for the root grid, the root level and the
    periodicity that the tree knows. *)
Definition FindNeighbor (pm : Mesh) (root : MeshBlockTree)
    (loc : LogicalLocation) (ox1 ox2 ox3 : Z) : option MeshBlockTree :=
  match shifted pm X1 (level loc) (lx1 loc) ox1,
        shifted pm X2 (level loc) (lx2 loc) ox2,
        shifted pm X3 (level loc) (lx3 loc) ox3 with
  | Some x1, Some x2, Some x3 => descend (Z.to_nat (level loc)) root x1 x2 x3
  | _, _, _ => None
  end.

(** Modelled from the spec: [FindLeaf(loc)], the descent to a location
    itself. *)
Definition FindLeaf (root : MeshBlockTree) (loc : LogicalLocation)
    : option MeshBlockTree :=
  descend (Z.to_nat (level loc)) root (lx1 loc) (lx2 loc) (lx3 loc).

End BlockTree.

(** ** The constructor: the flags of a block *)

(** The flag that the constructor assigns to a face of a block at [loc]. *)
Definition face_flag (pm : Mesh) (loc : LogicalLocation) (f : BoundaryFace)
    : BoundaryFlag :=
  let lev := level loc in
  match f with
  | inner_x1 =>
      if lx1 loc =? 0 then mesh_bcs pm inner_x1 else block
  | outer_x1 =>
      if lx1 loc =? wrap32 (shl32 (nmb_rootx1 pm) (lev - root_level pm) - 1)
      then mesh_bcs pm outer_x1 else block
  | inner_x2 =>
      if nx2 pm =? 1 then mesh_bcs pm inner_x2
      else if lx2 loc =? 0 then mesh_bcs pm inner_x2 else block
  | outer_x2 =>
      if nx2 pm =? 1 then mesh_bcs pm outer_x2
      else if lx2 loc =? wrap32 (shl32 (nmb_rootx2 pm) (lev - root_level pm) - 1)
           then mesh_bcs pm outer_x2 else block
  | inner_x3 =>
      if nx3 pm =? 1 then mesh_bcs pm inner_x3
      else if lx3 loc =? 0 then mesh_bcs pm inner_x3 else block
  | outer_x3 =>
      if nx3 pm =? 1 then mesh_bcs pm outer_x3
      else if lx3 loc =? wrap32 (shl32 (nmb_rootx3 pm) (lev - root_level pm) - 1)
           then mesh_bcs pm outer_x3 else block
  end.

(** The six assignments to row [m]. *)
Definition set_faces (m : Z) (v : BoundaryFace -> BoundaryFlag)
    (a : list (list BoundaryFlag)) : list (list BoundaryFlag) :=
  wr2 m 5 (fun _ => v outer_x3) (wr2 m 4 (fun _ => v inner_x3)
  (wr2 m 3 (fun _ => v outer_x2) (wr2 m 2 (fun _ => v inner_x2)
  (wr2 m 1 (fun _ => v outer_x1) (wr2 m 0 (fun _ => v inner_x1) a))))).

Lemma set_faces_cell m v a m' f :
  cell (set_faces m v a) m' (face_index f) =
  if decide (m = m') then (fun _ => v f) <$> cell a m' (face_index f)
  else cell a m' (face_index f).
Proof.
  unfold set_faces. destruct (decide (m = m')) as [<-|Hne].
  - destruct f; cbn [face_index];
      repeat first [ rewrite cell_wr2_eq
                   | rewrite cell_wr2_ne by (intros [=]) ];
      destruct (cell a m _); reflexivity.
  - rewrite !cell_wr2_ne by congruence. reflexivity.
Qed.

Lemma set_faces_shape m v a : length <$> set_faces m v a = length <$> a.
Proof. unfold set_faces. rewrite !wr2_shape. reflexivity. Qed.

Lemma ctor_block_mbbcs pm igids m w :
  mbbcs (this (exec (ctor_block pm igids m) w)) =
  set_faces m (face_flag pm (lloclist pm (igids + m))) (mbbcs (this w)).
Proof.
  unfold ctor_block, face_flag, set_faces. cbv zeta.
  rewrite !exec_seq.
  repeat match goal with
  | |- context [exec (if ?c then _ else _) _] => rewrite (exec_if c)
  end.
  destruct (lx1 (lloclist pm (igids + m)) =? 0),
    (lx1 (lloclist pm (igids + m)) =?
       wrap32 (shl32 (nmb_rootx1 pm)
                 (level (lloclist pm (igids + m)) - root_level pm) - 1)),
    (nx2 pm =? 1), (nx3 pm =? 1),
    (lx2 (lloclist pm (igids + m)) =? 0),
    (lx2 (lloclist pm (igids + m)) =?
       wrap32 (shl32 (nmb_rootx2 pm)
                 (level (lloclist pm (igids + m)) - root_level pm) - 1)),
    (lx3 (lloclist pm (igids + m)) =? 0),
    (lx3 (lloclist pm (igids + m)) =?
       wrap32 (shl32 (nmb_rootx3 pm)
                 (level (lloclist pm (igids + m)) - root_level pm) - 1));
    reflexivity.
Qed.

Lemma ctor_blocks_cell pm igids (ms : list Z) w m f :
  cell (mbbcs (this (fold_left (fun w x => exec (ctor_block pm igids x) w) ms w)))
       m (face_index f) =
  if decide (m ∈ ms)
  then (fun _ => face_flag pm (lloclist pm (igids + m)) f) <$>
         cell (mbbcs (this w)) m (face_index f)
  else cell (mbbcs (this w)) m (face_index f).
Proof.
  revert w. induction ms as [|x ms IH]; intros w; cbn [fold_left].
  - rewrite decide_False by apply not_elem_of_nil. reflexivity.
  - rewrite IH, ctor_block_mbbcs, set_faces_cell.
    destruct (decide (x = m)) as [->|Hne].
    + rewrite (decide_True (P := m ∈ m :: ms)) by apply list_elem_of_here.
      destruct (decide (m ∈ ms)); destruct (cell (mbbcs (this w)) m _);
        reflexivity.
    + destruct (decide (m ∈ ms)) as [Hin|Hnin].
      * rewrite decide_True by (apply list_elem_of_further, Hin). reflexivity.
      * rewrite decide_False; [reflexivity|].
        rewrite elem_of_cons. intros [Heq|Hin]; [|exact (Hnin Hin)].
        apply Hne. symmetry. exact Heq.
Qed.

(** After the constructor, the flag of every face of every block of the
    pack. *)
Lemma ctor_face fresh pm igids n w m f :
  0 <= m < n ->
  cell (mbbcs (this (exec (MeshBlock_ctor fresh pm igids n) w))) m (face_index f)
  = Some (face_flag pm (lloclist pm (igids + m)) f).
Proof.
  intros Hm. unfold MeshBlock_ctor. rewrite !exec_seq, !exec_update.
  cbn [this mbbcs with_mbgid with_mblev]. rewrite exec_for_each.
  rewrite ctor_blocks_cell, decide_True by (apply elem_of_seqZ; lia).
  unfold init_members. rewrite exec_update. cbn [this mbbcs].
  rewrite cell_replicate; [reflexivity|lia|destruct f; cbn; lia].
Qed.

(** The shift that counts the blocks along an axis stays in range for the
    levels and root grids of a mesh. *)
Lemma shl32_extent pm a ll :
  root_level pm <= ll -> 0 <= nmb_root a pm -> extent pm a ll < 2 ^ 31 ->
  wrap32 (shl32 (nmb_root a pm) (ll - root_level pm) - 1) = extent pm a ll - 1.
Proof.
  intros Hl Hn He. unfold shl32, extent in *.
  rewrite Z.shiftl_mul_pow2 by lia.
  assert (0 <= nmb_root a pm * 2 ^ (ll - root_level pm)) as H0
    by (apply Z.mul_nonneg_nonneg; [lia|apply Z.pow_nonneg; lia]).
  assert (forall z, - 2 ^ 31 <= z < 2 ^ 31 -> wrap32 z = z) as Hw.
  { intros z Hz. unfold wrap32.
    rewrite Z.mod_small by (change (2 ^ 32) with (2 ^ 31 + 2 ^ 31); lia). lia. }
  rewrite (Hw (nmb_root a pm * 2 ^ (ll - root_level pm))) by lia.
  apply Hw. lia.
Qed.

(** The two faces of a block on an axis that the constructor does not treat
    as degenerate. *)
Lemma ctor_axis_faces fresh pm igids n w m a :
  0 <= m < n -> degenerate pm a = false ->
  let mb := this (exec (MeshBlock_ctor fresh pm igids n) w) in
  let loc := lloclist pm (igids + m) in
  root_level pm <= level loc -> 0 <= nmb_root a pm ->
  extent pm a (level loc) < 2 ^ 31 ->
  cell (mbbcs mb) m (face_index (inner a)) =
    Some (if coord a loc =? 0 then mesh_bcs pm (inner a) else block) /\
  cell (mbbcs mb) m (face_index (outer a)) =
    Some (if coord a loc =? extent pm a (level loc) - 1
          then mesh_bcs pm (outer a) else block).
Proof.
  intros Hm Hdeg. cbv zeta. intros Hl Hn He.
  rewrite !ctor_face by exact Hm.
  pose proof (shl32_extent pm a _ Hl Hn He) as Hsh.
  destruct a; cbn [degenerate] in Hdeg; cbn [inner outer face_flag coord];
    cbn [nmb_root] in Hsh; rewrite ?Hdeg, ?Hsh; split; reflexivity.
Qed.

(** C3. On an axis that is not degenerate, the low face of a block is
    physical, with the inner condition of the mesh, exactly when the block's
    coordinate on the axis is 0, the high face is physical, with the outer
    condition, exactly when the coordinate is [nmbRoot * 2^(L - rootLevel) -
    1], and any other face on the axis is block.  So all faces of the single
    block of an unrefined one-block mesh are physical, and in a 2x2x2 root
    grid the faces on the outside of the grid are physical and those inside
    are block.  The block's level is not below the root level, the number of
    blocks along the axis fits in 32 bits, and the conditions configured for
    the mesh are not [block]. *)
Theorem ctor_classifies_faces fresh pm igids n w m :
  0 <= m < n ->
  let mb := this (exec (MeshBlock_ctor fresh pm igids n) w) in
  let loc := lloclist pm (igids + m) in
  (forall a,
     degenerate pm a = false ->
     root_level pm <= level loc -> 0 <= nmb_root a pm ->
     extent pm a (level loc) < 2 ^ 31 ->
     mesh_bcs pm (inner a) <> block -> mesh_bcs pm (outer a) <> block ->
     (physical pm mb m (inner a) <-> coord a loc = 0) /\
     (physical pm mb m (outer a) <->
        coord a loc = nmb_root a pm * 2 ^ (level loc - root_level pm) - 1) /\
     (coord a loc <> 0 -> is_block mb m (inner a)) /\
     (coord a loc <> nmb_root a pm * 2 ^ (level loc - root_level pm) - 1 ->
        is_block mb m (outer a))) /\
  ((forall a, nmb_root a pm = 1) -> level loc = root_level pm ->
   (forall a, coord a loc = 0) ->
   forall f, physical pm mb m f) /\
  ((forall a, nmb_root a pm = 2) -> (forall a, degenerate pm a = false) ->
   level loc = root_level pm ->
   (forall a, coord a loc = 0 \/ coord a loc = 1) ->
   (forall f, mesh_bcs pm f <> block) ->
   forall a,
     (physical pm mb m (inner a) <-> coord a loc = 0) /\
     (is_block mb m (inner a) <-> coord a loc = 1) /\
     (physical pm mb m (outer a) <-> coord a loc = 1) /\
     (is_block mb m (outer a) <-> coord a loc = 0)).
Proof.
  intros Hm. cbv zeta.
  set (mb := this (exec (MeshBlock_ctor fresh pm igids n) w)).
  set (loc := lloclist pm (igids + m)).
  assert (forall a,
    degenerate pm a = false ->
    root_level pm <= level loc -> 0 <= nmb_root a pm ->
    extent pm a (level loc) < 2 ^ 31 ->
    mesh_bcs pm (inner a) <> block -> mesh_bcs pm (outer a) <> block ->
    (physical pm mb m (inner a) <-> coord a loc = 0) /\
    (physical pm mb m (outer a) <-> coord a loc = extent pm a (level loc) - 1) /\
    (is_block mb m (inner a) <-> coord a loc <> 0) /\
    (is_block mb m (outer a) <-> coord a loc <> extent pm a (level loc) - 1))
    as Hgen.
  { intros a Hdeg Hl Hn He Hi Ho.
    destruct (ctor_axis_faces fresh pm igids n w m a Hm Hdeg Hl Hn He)
      as [Hin Hout].
    fold mb loc in Hin, Hout. unfold physical, is_block. rewrite Hin, Hout.
    destruct (Z.eqb_spec (coord a loc) 0),
      (Z.eqb_spec (coord a loc) (extent pm a (level loc) - 1));
      repeat split; intros; congruence. }
  split; [|split].
  - intros a Hdeg Hl Hn He Hi Ho.
    destruct (Hgen a Hdeg Hl Hn He Hi Ho) as (H1 & H2 & H3 & H4).
    unfold extent in *. repeat split; try tauto; try apply H1; try apply H2.
  - intros Hone Hlev Hco f. unfold physical. subst mb.
    rewrite ctor_face by exact Hm. fold loc. f_equal.
    pose proof (Hone X1) as H1. pose proof (Hone X2) as H2.
    pose proof (Hone X3) as H3. pose proof (Hco X1) as C1.
    pose proof (Hco X2) as C2. pose proof (Hco X3) as C3.
    cbn [nmb_root coord] in *.
    destruct f; cbn [face_flag]; rewrite ?H1, ?H2, ?H3, ?C1, ?C2, ?C3, ?Hlev,
      ?Z.sub_diag; cbn; destruct (nx2 pm =? 1), (nx3 pm =? 1); reflexivity.
  - intros Htwo Hdeg Hlev Hco Hbc a.
    assert (extent pm a (level loc) = 2) as He
      by (unfold extent; rewrite Htwo, Hlev, Z.sub_diag; reflexivity).
    destruct (Hgen a (Hdeg a)) as (H1 & H2 & H3 & H4);
      [lia | rewrite Htwo; lia | rewrite He; reflexivity | apply Hbc..|].
    rewrite He in *. specialize (Hco a).
    rewrite H1, H2, H3, H4. lia.
Qed.

(** C6. When the mesh has one cell along x2, both x2 faces of every block of
    the pack get the inner and outer x2 conditions of the mesh, whatever the
    block's location and level; likewise along x3. *)
Theorem ctor_degenerate_axes_physical fresh pm igids n w m :
  0 <= m < n ->
  let mb := this (exec (MeshBlock_ctor fresh pm igids n) w) in
  (nx2 pm = 1 -> physical pm mb m inner_x2 /\ physical pm mb m outer_x2) /\
  (nx3 pm = 1 -> physical pm mb m inner_x3 /\ physical pm mb m outer_x3).
Proof.
  intros Hm. cbv zeta. unfold physical. rewrite !ctor_face by exact Hm.
  cbn [face_flag]. split; intros ->; split; reflexivity.
Qed.
(** ** Directions and slots *)

(** A direction [(ox1, ox2, ox3)] of the search. *)
Definition Dir : Type := Z * Z * Z.

Definition opposite (d : Dir) : Dir :=
  let '(n, m, l) := d in (- n, - m, - l).

(** The slot of a direction, in closed form: the seven index expressions of
    [SetNeighbors], selected by which offsets are zero. *)
Definition slot_index (d : Dir) : Z :=
  let '(n, m, l) := d in
  if l =? 0 then
    if m =? 0 then (1 + n) `quot` 2
    else if n =? 0 then 2 + (1 + m) `quot` 2
    else 4 + (1 + m) + (1 + n) `quot` 2
  else
    if m =? 0 then
      if n =? 0 then 8 + (1 + l) `quot` 2
      else 10 + (1 + l) + (1 + n) `quot` 2
    else if n =? 0 then 14 + (1 + l) + (1 + m) `quot` 2
    else 18 + 2 * (1 + l) + (1 + m) + (1 + n) `quot` 2.

(** An offset of a search: -1, 0 or 1 on each axis, not all zero. *)
Definition admitted (d : Dir) : Prop :=
  let '(n, m, l) := d in
  (n = -1 \/ n = 0 \/ n = 1) /\ (m = -1 \/ m = 0 \/ m = 1) /\
  (l = -1 \/ l = 0 \/ l = 1) /\ d <> (0, 0, 0).

(** The directions in the order in which the loops visit them. *)
Definition x1_faces : list Dir := n ← pm1; [(n, 0, 0)].
Definition x2_faces : list Dir := m ← pm1; [(0, m, 0)].
Definition x1x2_edges : list Dir := m ← pm1; n ← pm1; [(n, m, 0)].
Definition x3_faces : list Dir := l ← pm1; [(0, 0, l)].
Definition x3x1_edges : list Dir := l ← pm1; n ← pm1; [(n, 0, l)].
Definition x2x3_edges : list Dir := l ← pm1; m ← pm1; [(0, m, l)].
Definition corners : list Dir := l ← pm1; m ← pm1; n ← pm1; [(n, m, l)].

Definition directions (pm : Mesh) : list Dir :=
  x1_faces ++
  (if multi_d pm then x2_faces ++ x1x2_edges else []) ++
  (if three_d pm
   then x3_faces ++ x3x1_edges ++ x2x3_edges ++ corners else []).

(** The value of [nnghbr] after the three tests, from its value before. *)
Definition nnghbr_of (pm : Mesh) (old : Z) : Z :=
  if three_d pm then 26 else if two_d pm then 8 else if one_d pm then 2 else old.

(** The flags of a mesh name one dimensionality: exactly one of [one_d],
    [two_d], [three_d], and [multi_d] for the last two. *)
Definition dims_ok (pm : Mesh) : Prop :=
  (one_d pm = true /\ two_d pm = false /\ three_d pm = false /\ multi_d pm = false) \/
  (one_d pm = false /\ two_d pm = true /\ three_d pm = false /\ multi_d pm = true) \/
  (one_d pm = false /\ two_d pm = false /\ three_d pm = true /\ multi_d pm = true).

(** What [SetNeighbors] leaves alone. *)
Definition same_frame (mb mb' : MeshBlock) : Prop :=
  pmesh mb' = pmesh mb /\ nmb mb' = nmb mb /\ mbgid mb' = mbgid mb /\
  mblev mb' = mblev mb /\ mbbcs mb' = mbbcs mb /\ mbcost mb' = mbcost mb.

(** The host copy of the neighbour table. *)
Definition table (w : World) : list (list NeighborBlock) :=
  h_view (nghbr (this w)).

(** The location of the [b]-th block of the pack,
    [pmesh->lloclist[mbgid.h_view(b)]]. *)
Definition block_loc (mb : MeshBlock) (b : Z) : LogicalLocation :=
  lloclist (pmesh mb) (rd1 0 (h_view (mbgid mb)) b).

Lemma pm1_elem (x : Z) : x ∈ pm1 -> x = -1 \/ x = 1.
Proof.
  unfold pm1. rewrite !elem_of_cons, elem_of_nil. intuition.
Qed.

(** The row lengths of the table. *)
Definition shape (w : World) : list nat := length <$> table w.

(** One slot of the host copy overwritten, everything else as it was. *)
Definition fill (b s : Z) (e : NeighborBlock) (w : World) : World :=
  {| this := with_nghbr (dual_write_host (wr2 b s (fun _ => e))) (this w);
     searches := searches w |}.

(** What the loops over the table keep: every field but the host copy of
    [nghbr], and the extents of that copy. *)
Definition stable (w w' : World) : Prop :=
  same_frame (this w) (this w') /\
  nnghbr (this w') = nnghbr (this w) /\
  d_view (nghbr (this w')) = d_view (nghbr (this w)) /\
  modified_host (nghbr (this w')) = modified_host (nghbr (this w)) /\
  shape w' = shape w.

Lemma same_frame_refl mb : same_frame mb mb.
Proof. repeat split. Qed.

Lemma same_frame_trans mb1 mb2 mb3 :
  same_frame mb1 mb2 -> same_frame mb2 mb3 -> same_frame mb1 mb3.
Proof.
  unfold same_frame. intros (?&?&?&?&?&?) (?&?&?&?&?&?).
  repeat split; congruence.
Qed.

Lemma stable_refl w : stable w w.
Proof. repeat split. Qed.

Lemma stable_trans w1 w2 w3 : stable w1 w2 -> stable w2 w3 -> stable w1 w3.
Proof.
  unfold stable. intros (F1&?&?&?&?) (F2&?&?&?&?).
  split; [exact (same_frame_trans _ _ _ F1 F2)|]. repeat split; congruence.
Qed.

Lemma fill_stable b s e w : stable w (fill b s e w).
Proof.
  unfold stable, fill, shape, table. cbn. repeat split. apply wr2_shape.
Qed.

Lemma fill_cell b s e w b' s' :
  cell (table (fill b s e w)) b' s' =
  if decide ((b, s) = (b', s'))
  then (fun _ => e) <$> cell (table w) b' s' else cell (table w) b' s'.
Proof.
  unfold fill, table. cbn. destruct (decide ((b, s) = (b', s'))) as [[= <- <-]|Hne].
  - apply cell_wr2_eq.
  - apply cell_wr2_ne, Hne.
Qed.

Lemma fill_searches b s e w : searches (fill b s e w) = searches w.
Proof. reflexivity. Qed.

(** The extents of the table, read off its shape. *)
Lemma shape_extents w (n k : nat) :
  shape w = replicate n k ->
  length (table w) = n /\ (forall r, r ∈ table w -> length r = k).
Proof.
  unfold shape. intros H. split.
  - rewrite <- (length_fmap length), H. apply length_replicate.
  - intros r Hr. apply list_elem_of_lookup in Hr as [i Hi].
    assert ((length <$> table w) !! i = Some (length r)) as Hl
      by (rewrite list_lookup_fmap, Hi; reflexivity).
    rewrite H in Hl. apply lookup_replicate in Hl as [-> _]. reflexivity.
Qed.

(** *** The directions of a mesh *)

Ltac each_direction H :=
  unfold directions, x1_faces, x2_faces, x1x2_edges, x3_faces, x3x1_edges,
    x2x3_edges, corners, pm1 in H;
  cbn [mbind list_bind app] in H;
  repeat (apply elem_of_cons in H as [->|H]);
  try (apply elem_of_nil in H as []).

Lemma directions_NoDup pm : NoDup (slot_index <$> directions pm).
Proof.
  unfold directions. destruct (multi_d pm), (three_d pm);
    apply (bool_decide_unpack _); vm_compute; exact I.
Qed.

Lemma directions_admitted pm d : d ∈ directions pm -> admitted d.
Proof.
  unfold directions. destruct (multi_d pm), (three_d pm); intros H;
    each_direction H;
    (repeat split; [lia..|discriminate]).
Qed.

Lemma directions_slot_range pm d :
  d ∈ directions pm -> 0 <= slot_index d < 26.
Proof.
  unfold directions. destruct (multi_d pm), (three_d pm); intros H;
    each_direction H;
    (split; [vm_compute; discriminate | vm_compute; reflexivity]).
Qed.

Lemma directions_opposite pm d :
  d ∈ directions pm -> opposite d ∈ directions pm.
Proof.
  unfold directions. destruct (multi_d pm), (three_d pm); intros H;
    each_direction H;
    apply (bool_decide_unpack _); vm_compute; exact I.
Qed.

Lemma opposite_involutive d : opposite (opposite d) = d.
Proof. destruct d as [[n m] l]. cbn. f_equal; [f_equal|]; lia. Qed.

(** In a three-dimensional mesh every admitted offset is a direction of the
    search. *)
Lemma directions_3d pm d :
  multi_d pm = true -> three_d pm = true -> admitted d -> d ∈ directions pm.
Proof.
  intros Hm Ht. destruct d as [[n m] l]. unfold directions. rewrite Hm, Ht.
  intros (Hn & Hm' & Hl & Hne).
  destruct Hn as [->|[->| ->]], Hm' as [->|[->| ->]], Hl as [->|[->| ->]];
    try (exfalso; apply Hne; reflexivity);
    apply (bool_decide_unpack _); vm_compute; exact I.
Qed.

(** With consistent flags the slots of the directions are the slots of the
    table. *)
Lemma directions_slot_lt pm old d :
  dims_ok pm -> d ∈ directions pm -> slot_index d < nnghbr_of pm old.
Proof.
  intros Hok H. unfold nnghbr_of.
  destruct Hok as [(H1 & H2 & H3 & H4)|[(H1 & H2 & H3 & H4)|(H1 & H2 & H3 & H4)]];
    unfold directions in H; rewrite ?H1, ?H2, ?H3, ?H4 in *;
    each_direction H; vm_compute; reflexivity.
Qed.

Lemma slot_has_direction pm old s :
  dims_ok pm -> 0 <= s < nnghbr_of pm old ->
  exists d, d ∈ directions pm /\ slot_index d = s.
Proof.
  intros Hok Hs. unfold nnghbr_of in Hs.
  assert (forall l : list Dir,
    (exists k, slot_index <$> l = seqZ 0 k /\ 0 <= s < k) ->
    exists d, d ∈ l /\ slot_index d = s) as Hl.
  { intros l (k & Hk & Hsk).
    assert (s ∈ slot_index <$> l) as Hin
      by (rewrite Hk; apply elem_of_seqZ; lia).
    apply list_elem_of_fmap in Hin as (d & -> & Hd). eauto. }
  apply Hl.
  destruct Hok as [(H1 & H2 & H3 & H4)|[(H1 & H2 & H3 & H4)|(H1 & H2 & H3 & H4)]];
    unfold directions; rewrite ?H1, ?H2, ?H3, ?H4 in *.
  - exists 2. split; [reflexivity|lia].
  - exists 8. split; [reflexivity|lia].
  - exists 26. split; [reflexivity|lia].
Qed.

Lemma nnghbr_of_dims pm old :
  dims_ok pm ->
  nnghbr_of pm old = if one_d pm then 2 else if two_d pm then 8 else 26.
Proof.
  unfold nnghbr_of.
  intros [(-> & -> & -> & _)|[(-> & -> & -> & _)|(-> & -> & -> & _)]];
    reflexivity.
Qed.

(** A table is determined by its shape and its cells. *)
Lemma table_replicate {A} (a : list (list A)) (n k : nat) (x : A) :
  length <$> a = replicate n k ->
  (forall i j, 0 <= i < Z.of_nat n -> 0 <= j < Z.of_nat k ->
               cell a i j = Some x) ->
  a = replicate n (replicate k x).
Proof.
  intros Hsh Hc. apply list_eq. intros i.
  destruct (decide (i < n)%nat) as [Hi|Hi].
  - rewrite lookup_replicate_2 by exact Hi.
    assert ((length <$> a) !! i = Some k) as Hlen
      by (rewrite Hsh; apply lookup_replicate_2, Hi).
    rewrite list_lookup_fmap in Hlen.
    destruct (a !! i) as [r|] eqn:Hr; [|discriminate].
    injection Hlen as Hlen. f_equal. apply list_eq. intros j.
    destruct (decide (j < k)%nat) as [Hj|Hj].
    + rewrite lookup_replicate_2 by exact Hj.
      specialize (Hc (Z.of_nat i) (Z.of_nat j) ltac:(lia) ltac:(lia)).
      unfold cell in Hc.
      destruct (Z.ltb_spec (Z.of_nat i) 0); [lia|].
      destruct (Z.ltb_spec (Z.of_nat j) 0); [lia|].
      cbn [orb] in Hc. rewrite !Nat2Z.id, Hr in Hc. exact Hc.
    + rewrite (lookup_ge_None_2 r) by lia.
      symmetry. apply lookup_replicate_None. lia.
  - rewrite (lookup_ge_None_2 (replicate _ _))
      by (rewrite length_replicate; lia).
    apply lookup_ge_None_2.
    rewrite <- (length_fmap length), Hsh, length_replicate. lia.
Qed.

Lemma fmap_NoDup_inj {A B} (f : A -> B) (l : list A) (x y : A) :
  NoDup (f <$> l) -> x ∈ l -> y ∈ l -> f x = f y -> x = y.
Proof.
  induction l as [|a l IH]; intros Hnd Hx Hy Heq.
  - apply elem_of_nil in Hx as [].
  - rewrite fmap_cons in Hnd. apply NoDup_cons in Hnd as [Ha Hnd].
    apply elem_of_cons in Hx as [->|Hx], Hy as [->|Hy].
    + reflexivity.
    + exfalso. apply Ha. rewrite Heq. apply list_elem_of_fmap_2, Hy.
    + exfalso. apply Ha. rewrite <- Heq. apply list_elem_of_fmap_2, Hx.
    + apply IH; assumption.
Qed.

(** A mesh with all the flags of three dimensions, to name the 26
    directions. *)
Definition flags_3d : Mesh :=
  {| one_d := false; two_d := false; three_d := true; multi_d := true;
     nx2 := 2; nx3 := 2; nmb_rootx1 := 1; nmb_rootx2 := 1; nmb_rootx3 := 1;
     root_level := 0; mesh_bcs := fun _ => undef;
     lloclist := fun _ => {| lx1 := 0; lx2 := 0; lx3 := 0; level := 0 |} |}.

(** No two admitted offsets share a slot. *)
Lemma slot_index_inj d d' :
  admitted d -> admitted d' -> slot_index d = slot_index d' -> d = d'.
Proof.
  intros Hd Hd'.
  apply (fmap_NoDup_inj slot_index (directions flags_3d)).
  - apply directions_NoDup.
  - apply directions_3d; [reflexivity..|exact Hd].
  - apply directions_3d; [reflexivity..|exact Hd'].
Qed.


Lemma directions_line pm d :
  multi_d pm = false -> three_d pm = false -> d ∈ directions pm ->
  d.1.2 = 0 /\ d.2 = 0.
Proof.
  intros Hm Ht. unfold directions. rewrite Hm, Ht. intros H.
  each_direction H; split; reflexivity.
Qed.

(** The searches that a call has added to the record. *)
Definition issued (w w' : World) : list (LogicalLocation * Dir) :=
  drop (length (searches w)) (searches w').
(** ** The neighbour search *)

Section Neighbors.

(** The two member functions of [MeshBlockTree] that [SetNeighbors] calls.
    Their bodies are not among the sources; the results of this section hold
    for every tree search and every child selection.  [FindNeighbor] returns
    [None] for the null pointer.  The node that [GetLeaf] returns is
    dereferenced without a test. *)
Variable FindNeighbor :
  MeshBlockTree -> LogicalLocation -> Z -> Z -> Z -> option MeshBlockTree.
Variable GetLeaf : MeshBlockTree -> Z -> Z -> Z -> MeshBlockTree.

(** What a slot holds between [Kokkos::realloc] and its initialisation. *)
Variable fresh_nghbr : NeighborBlock.

(** [ptree->FindNeighbor(loc, ox1, ox2, ox3)], entered in the ghost record. *)
Definition find_neighbor (ptree : MeshBlockTree) (loc : LogicalLocation)
    (ox1 ox2 ox3 : Z) : M (option MeshBlockTree) :=
  fun w => (FindNeighbor ptree loc ox1 ox2 ox3,
            {| this := this w;
               searches := searches w ++ [(loc, (ox1, ox2, ox3))] |}).

Definition put_gid (v : Z) (e : NeighborBlock) : NeighborBlock :=
  {| gid := v; lev := lev e; rank := rank e; destn := destn e |}.
Definition put_lev (v : Z) (e : NeighborBlock) : NeighborBlock :=
  {| gid := gid e; lev := v; rank := rank e; destn := destn e |}.
Definition put_rank (v : Z) (e : NeighborBlock) : NeighborBlock :=
  {| gid := gid e; lev := lev e; rank := v; destn := destn e |}.
Definition put_destn (v : Z) (e : NeighborBlock) : NeighborBlock :=
  {| gid := gid e; lev := lev e; rank := rank e; destn := v |}.

(** [nghbr.h_view(m,n).gid = v] and its three siblings. *)
Definition nghbr_gid (m n v : Z) : M unit :=
  update (with_nghbr (dual_write_host (wr2 m n (put_gid v)))).
Definition nghbr_lev (m n v : Z) : M unit :=
  update (with_nghbr (dual_write_host (wr2 m n (put_lev v)))).
Definition nghbr_rank (m n v : Z) : M unit :=
  update (with_nghbr (dual_write_host (wr2 m n (put_rank v)))).
Definition nghbr_destn (m n v : Z) : M unit :=
  update (with_nghbr (dual_write_host (wr2 m n (put_destn v)))).

(** The four assignments made for a found node [nt] at slot [s]. *)
Definition record_node (ranklist : Z -> Z) (b s : Z) (nt : MeshBlockTree)
    (d : Z) : M unit :=
  (nghbr_gid b s (gid_ nt) ;;
   nghbr_lev b s (level (loc_ nt)) ;;
   nghbr_rank b s (ranklist (gid_ nt)) ;;
   nghbr_destn b s d)%prog.

(** Neighbours on the x1 faces: the only loop that looks at [pleaf_]. *)
Definition x1face (ptree : MeshBlockTree) (ranklist : Z -> Z) (b : Z)
    (loc : LogicalLocation) (n : Z) : M unit :=
  (nt <- find_neighbor ptree loc n 0 0 ;;
   match nt with
   | Some nt =>
       match pleaf_ nt with
       | Some _ =>
           let fface := 1 - (n + 1) `quot` 2 in
           let nf := GetLeaf nt fface 0 0 in
           record_node ranklist b ((1 + n) `quot` 2) nf ((1 - n) `quot` 2)
       | None =>
           record_node ranklist b ((1 + n) `quot` 2) nt ((1 - n) `quot` 2)
       end
   | None => ret tt
   end)%prog.

Definition x2face (ptree : MeshBlockTree) (ranklist : Z -> Z) (b : Z)
    (loc : LogicalLocation) (m : Z) : M unit :=
  (nt <- find_neighbor ptree loc 0 m 0 ;;
   match nt with
   | Some nt =>
       record_node ranklist b (2 + (1 + m) `quot` 2) nt (2 + (1 - m) `quot` 2)
   | None => ret tt
   end)%prog.

Definition x1x2edge (ptree : MeshBlockTree) (ranklist : Z -> Z) (b : Z)
    (loc : LogicalLocation) (m n : Z) : M unit :=
  (nt <- find_neighbor ptree loc n m 0 ;;
   match nt with
   | Some nt =>
       record_node ranklist b (4 + (1 + m) + (1 + n) `quot` 2) nt
                   (4 + (1 - m) + (1 - n) `quot` 2)
   | None => ret tt
   end)%prog.

Definition x3face (ptree : MeshBlockTree) (ranklist : Z -> Z) (b : Z)
    (loc : LogicalLocation) (l : Z) : M unit :=
  (nt <- find_neighbor ptree loc 0 0 l ;;
   match nt with
   | Some nt =>
       record_node ranklist b (8 + (1 + l) `quot` 2) nt (8 + (1 - l) `quot` 2)
   | None => ret tt
   end)%prog.

Definition x3x1edge (ptree : MeshBlockTree) (ranklist : Z -> Z) (b : Z)
    (loc : LogicalLocation) (l n : Z) : M unit :=
  (nt <- find_neighbor ptree loc n 0 l ;;
   match nt with
   | Some nt =>
       record_node ranklist b (10 + (1 + l) + (1 + n) `quot` 2) nt
                   (10 + (1 - l) + (1 - n) `quot` 2)
   | None => ret tt
   end)%prog.

Definition x2x3edge (ptree : MeshBlockTree) (ranklist : Z -> Z) (b : Z)
    (loc : LogicalLocation) (l m : Z) : M unit :=
  (nt <- find_neighbor ptree loc 0 m l ;;
   match nt with
   | Some nt =>
       record_node ranklist b (14 + (1 + l) + (1 + m) `quot` 2) nt
                   (14 + (1 - l) + (1 - m) `quot` 2)
   | None => ret tt
   end)%prog.

Definition corner (ptree : MeshBlockTree) (ranklist : Z -> Z) (b : Z)
    (loc : LogicalLocation) (l m n : Z) : M unit :=
  (nt <- find_neighbor ptree loc n m l ;;
   match nt with
   | Some nt =>
       record_node ranklist b (18 + 2 * (1 + l) + (1 + m) + (1 + n) `quot` 2) nt
                   (18 + 2 * (1 - l) + (1 - m) + (1 - n) `quot` 2)
   | None => ret tt
   end)%prog.

(** The body of the loop over the blocks: "Search MeshBlock tree and find
    neighbors". *)
Definition search_block (ptree : MeshBlockTree) (ranklist : Z -> Z) (b : Z)
    : M unit :=
  (pm <- read pmesh ;;
   g <- read (fun mb => rd1 0 (h_view (mbgid mb)) b) ;;
   let loc := lloclist pm g in
   for_each pm1 (fun n => x1face ptree ranklist b loc n) ;;
   (if multi_d pm
    then
      (for_each pm1 (fun m => x2face ptree ranklist b loc m) ;;
       for_each pm1 (fun m =>
         for_each pm1 (fun n => x1x2edge ptree ranklist b loc m n)))
    else ret tt) ;;
   (if three_d pm
    then
      (for_each pm1 (fun l => x3face ptree ranklist b loc l) ;;
       for_each pm1 (fun l =>
         for_each pm1 (fun n => x3x1edge ptree ranklist b loc l n)) ;;
       for_each pm1 (fun l =>
         for_each pm1 (fun m => x2x3edge ptree ranklist b loc l m)) ;;
       for_each pm1 (fun l =>
         for_each pm1 (fun m =>
           for_each pm1 (fun n => corner ptree ranklist b loc l m n))))
    else ret tt))%prog.

(** The three tests that set [nnghbr]. *)
Definition set_nnghbr : M unit :=
  (pm <- read pmesh ;;
   (if one_d pm then update (with_nnghbr 2) else ret tt) ;;
   (if two_d pm then update (with_nnghbr 8) else ret tt) ;;
   (if three_d pm then update (with_nnghbr 26) else ret tt))%prog.

(** [Kokkos::realloc(nghbr, nmb, nnghbr)]. *)
Definition realloc_nghbr : M unit :=
  update (fun mb =>
    with_nghbr (fun _ =>
      dual_alloc (replicate (Z.to_nat (nmb mb))
                            (replicate (Z.to_nat (nnghbr mb)) fresh_nghbr))) mb).

(** "Initialize host view elements of DualViews". *)
Definition init_nghbr : M unit :=
  (nn <- read nnghbr ;;
   nb <- read nmb ;;
   for_each (seqZ 0 nn) (fun n =>
     for_each (seqZ 0 nb) (fun m =>
       nghbr_gid m n (-1) ;;
       nghbr_lev m n (-1) ;;
       nghbr_rank m n (-1) ;;
       nghbr_destn m n (-1))))%prog.

Definition search_all (ptree : MeshBlockTree) (ranklist : Z -> Z) : M unit :=
  (nb <- read nmb ;;
   for_each (seqZ 0 nb) (fun b => search_block ptree ranklist b))%prog.

Definition publish_nghbr : M unit :=
  (update (with_nghbr dual_modify_host) ;;
   update (with_nghbr dual_sync_device))%prog.

(** [void MeshBlock::SetNeighbors(std::unique_ptr<MeshBlockTree> &ptree,
    int *ranklist)]. *)
Definition SetNeighbors (ptree : MeshBlockTree) (ranklist : Z -> Z) : M unit :=
  (set_nnghbr ;;
   realloc_nghbr ;;
   init_nghbr ;;
   search_all ptree ranklist ;;
   publish_nghbr)%prog.



(** *** The search of one direction, in one step *)

(** The node whose data a direction records: on the x1 faces the child that
    [GetLeaf] selects when the found node has children, and otherwise, and in
    every other direction, the found node itself. *)
Definition recorded_node (d : Dir) (nt : MeshBlockTree) : MeshBlockTree :=
  let '(n, m, l) := d in
  if (m =? 0) && (l =? 0)
  then match pleaf_ nt with
       | Some _ => GetLeaf nt (1 - (n + 1) `quot` 2) 0 0
       | None => nt
       end
  else nt.

Definition entry_of (ranklist : Z -> Z) (d : Dir) (nt : MeshBlockTree)
    : NeighborBlock :=
  {| gid := gid_ (recorded_node d nt);
     lev := level (loc_ (recorded_node d nt));
     rank := ranklist (gid_ (recorded_node d nt));
     destn := slot_index (opposite d) |}.

Definition search (ptree : MeshBlockTree) (loc : LogicalLocation) (d : Dir)
    : option MeshBlockTree :=
  let '(n, m, l) := d in FindNeighbor ptree loc n m l.

(** One direction: the search is entered in the record, and a found node
    fills the direction's slot. *)
Definition visit (ptree : MeshBlockTree) (ranklist : Z -> Z) (b : Z)
    (loc : LogicalLocation) (w : World) (d : Dir) : World :=
  {| this :=
       match search ptree loc d with
       | Some nt =>
           with_nghbr (dual_write_host
             (wr2 b (slot_index d) (fun _ => entry_of ranklist d nt))) (this w)
       | None => this w
       end;
     searches := searches w ++ [(loc, d)] |}.

(** The search of a block, direction by direction. *)
Definition visit_all (ptree : MeshBlockTree) (ranklist : Z -> Z) (b : Z)
    (w : World) : World :=
  fold_left (visit ptree ranklist b (block_loc (this w) b))
            (directions (pmesh (this w))) w.

Lemma record_node_exec ranklist b s nt d w :
  exec (record_node ranklist b s nt d) w =
  {| this := with_nghbr (dual_write_host (wr2 b s (fun _ =>
               {| gid := gid_ nt; lev := level (loc_ nt);
                  rank := ranklist (gid_ nt); destn := d |}))) (this w);
     searches := searches w |}.
Proof.
  unfold record_node, nghbr_gid, nghbr_lev, nghbr_rank, nghbr_destn.
  rewrite !exec_seq, !exec_update. cbn [this searches]. f_equal.
  unfold with_nghbr, dual_write_host. cbn. do 2 f_equal.
  rewrite !wr2_wr2. apply wr2_ext. intros e. reflexivity.
Qed.

Lemma x1face_visit ptree ranklist b loc n w :
  exec (x1face ptree ranklist b loc n) w =
  visit ptree ranklist b loc w (n, 0, 0).
Proof.
  unfold x1face. rewrite exec_bind. unfold find_neighbor, visit, search.
  cbn [fst snd]. destruct (FindNeighbor ptree loc n 0 0) as [nt|];
    [|reflexivity].
  unfold entry_of, recorded_node. cbn [Z.eqb andb opposite slot_index Z.opp].
  destruct (pleaf_ nt); rewrite record_node_exec; reflexivity.
Qed.

Lemma x2face_visit ptree ranklist b loc m w :
  m ∈ pm1 ->
  exec (x2face ptree ranklist b loc m) w =
  visit ptree ranklist b loc w (0, m, 0).
Proof.
  intros Hm. unfold x2face. rewrite exec_bind.
  unfold find_neighbor, visit, search. cbn [fst snd].
  destruct (FindNeighbor ptree loc 0 m 0) as [nt|]; [|reflexivity].
  rewrite record_node_exec. destruct (pm1_elem _ Hm) as [->| ->]; reflexivity.
Qed.

Lemma x1x2edge_visit ptree ranklist b loc m n w :
  m ∈ pm1 -> n ∈ pm1 ->
  exec (x1x2edge ptree ranklist b loc m n) w =
  visit ptree ranklist b loc w (n, m, 0).
Proof.
  intros Hm Hn. unfold x1x2edge. rewrite exec_bind.
  unfold find_neighbor, visit, search. cbn [fst snd].
  destruct (FindNeighbor ptree loc n m 0) as [nt|]; [|reflexivity].
  rewrite record_node_exec. destruct (pm1_elem _ Hm) as [->| ->], (pm1_elem _ Hn) as [->| ->];
    reflexivity.
Qed.

Lemma x3face_visit ptree ranklist b loc l w :
  l ∈ pm1 ->
  exec (x3face ptree ranklist b loc l) w =
  visit ptree ranklist b loc w (0, 0, l).
Proof.
  intros Hl. unfold x3face. rewrite exec_bind.
  unfold find_neighbor, visit, search. cbn [fst snd].
  destruct (FindNeighbor ptree loc 0 0 l) as [nt|]; [|reflexivity].
  rewrite record_node_exec. destruct (pm1_elem _ Hl) as [->| ->]; reflexivity.
Qed.

Lemma x3x1edge_visit ptree ranklist b loc l n w :
  l ∈ pm1 -> n ∈ pm1 ->
  exec (x3x1edge ptree ranklist b loc l n) w =
  visit ptree ranklist b loc w (n, 0, l).
Proof.
  intros Hl Hn. unfold x3x1edge. rewrite exec_bind.
  unfold find_neighbor, visit, search. cbn [fst snd].
  destruct (FindNeighbor ptree loc n 0 l) as [nt|]; [|reflexivity].
  rewrite record_node_exec. destruct (pm1_elem _ Hl) as [->| ->], (pm1_elem _ Hn) as [->| ->];
    reflexivity.
Qed.

Lemma x2x3edge_visit ptree ranklist b loc l m w :
  l ∈ pm1 -> m ∈ pm1 ->
  exec (x2x3edge ptree ranklist b loc l m) w =
  visit ptree ranklist b loc w (0, m, l).
Proof.
  intros Hl Hm. unfold x2x3edge. rewrite exec_bind.
  unfold find_neighbor, visit, search. cbn [fst snd].
  destruct (FindNeighbor ptree loc 0 m l) as [nt|]; [|reflexivity].
  rewrite record_node_exec. destruct (pm1_elem _ Hl) as [->| ->], (pm1_elem _ Hm) as [->| ->];
    reflexivity.
Qed.

Lemma corner_visit ptree ranklist b loc l m n w :
  l ∈ pm1 -> m ∈ pm1 -> n ∈ pm1 ->
  exec (corner ptree ranklist b loc l m n) w =
  visit ptree ranklist b loc w (n, m, l).
Proof.
  intros Hl Hm Hn. unfold corner. rewrite exec_bind.
  unfold find_neighbor, visit, search. cbn [fst snd].
  destruct (FindNeighbor ptree loc n m l) as [nt|]; [|reflexivity].
  rewrite record_node_exec. destruct (pm1_elem _ Hl) as [->| ->], (pm1_elem _ Hm) as [->| ->],
    (pm1_elem _ Hn) as [->| ->]; reflexivity.
Qed.

Ltac in_pm1 :=
  unfold pm1; repeat first [apply list_elem_of_here | apply list_elem_of_further].

(** The loops of [search_block] are the directions of the mesh, in order. *)
Lemma search_block_visit_all ptree ranklist b w :
  exec (search_block ptree ranklist b) w = visit_all ptree ranklist b w.
Proof.
  unfold search_block, visit_all, directions, block_loc.
  rewrite !exec_read. cbv zeta.
  set (loc := lloclist (pmesh (this w)) (rd1 0 (h_view (mbgid (this w))) b)).
  rewrite !fold_left_app.
  rewrite exec_seq, exec_for_each. cbn [fold_left pm1 x1_faces mbind list_bind
    app].
  rewrite !x1face_visit.
  rewrite exec_seq, !exec_if.
  assert (forall w0,
    exec (for_each pm1 (fun m => x2face ptree ranklist b loc m);;
          for_each pm1 (fun m =>
            for_each pm1 (fun n => x1x2edge ptree ranklist b loc m n)))%prog w0
    = fold_left (visit ptree ranklist b loc) (x2_faces ++ x1x2_edges) w0)
    as H2.
  { intros w0. rewrite exec_seq, !exec_for_each. cbn [fold_left pm1].
    rewrite !exec_for_each. cbn [fold_left pm1].
    rewrite !x2face_visit, !x1x2edge_visit by in_pm1.
    unfold x2_faces, x1x2_edges, pm1.
    cbn [mbind list_bind app fold_left]. reflexivity. }
  assert (forall w0,
    exec (for_each pm1 (fun l => x3face ptree ranklist b loc l);;
          for_each pm1 (fun l =>
            for_each pm1 (fun n => x3x1edge ptree ranklist b loc l n));;
          for_each pm1 (fun l =>
            for_each pm1 (fun m => x2x3edge ptree ranklist b loc l m));;
          for_each pm1 (fun l =>
            for_each pm1 (fun m =>
              for_each pm1 (fun n => corner ptree ranklist b loc l m n))))%prog
      w0
    = fold_left (visit ptree ranklist b loc)
        (x3_faces ++ x3x1_edges ++ x2x3_edges ++ corners) w0) as H3.
  { intros w0. rewrite !exec_seq, !exec_for_each. cbn [fold_left pm1].
    rewrite !exec_for_each. cbn [fold_left pm1].
    rewrite !exec_for_each. cbn [fold_left pm1].
    rewrite !x3face_visit, !x3x1edge_visit, !x2x3edge_visit, !corner_visit
      by in_pm1.
    unfold x3_faces, x3x1_edges, x2x3_edges, corners, pm1.
    cbn [mbind list_bind app fold_left]. reflexivity. }
  rewrite H2, H3.
  destruct (multi_d (pmesh (this w))), (three_d (pmesh (this w)));
    rewrite ?exec_ret; reflexivity.
Qed.

(** *** One block *)

(** What the search of a block in the directions [dirs] makes of the content
    [c] of slot [s] of its row. *)
Definition filled (ptree : MeshBlockTree) (ranklist : Z -> Z)
    (loc : LogicalLocation) (dirs : list Dir) (s : Z)
    (c : option NeighborBlock) : option NeighborBlock :=
  fold_left (fun c d =>
    if decide (slot_index d = s)
    then match search ptree loc d with
         | Some nt => (fun _ => entry_of ranklist d nt) <$> c
         | None => c
         end
    else c) dirs c.

Lemma visit_stable ptree ranklist b loc w d :
  stable w (visit ptree ranklist b loc w d).
Proof.
  unfold visit. destruct (search ptree loc d) as [nt|].
  - apply (fill_stable b (slot_index d) (entry_of ranklist d nt) w).
  - repeat split.
Qed.

Lemma visit_searches ptree ranklist b loc w d :
  searches (visit ptree ranklist b loc w d) = searches w ++ [(loc, d)].
Proof. reflexivity. Qed.

Lemma visit_cell ptree ranklist b loc w d b' s :
  cell (table (visit ptree ranklist b loc w d)) b' s =
  if decide ((b, slot_index d) = (b', s))
  then match search ptree loc d with
       | Some nt => (fun _ => entry_of ranklist d nt) <$> cell (table w) b' s
       | None => cell (table w) b' s
       end
  else cell (table w) b' s.
Proof.
  unfold visit. destruct (search ptree loc d) as [nt|].
  - apply (fill_cell b (slot_index d) (entry_of ranklist d nt) w).
  - destruct (decide _); reflexivity.
Qed.

Lemma visits_stable ptree ranklist b loc dirs w :
  stable w (fold_left (visit ptree ranklist b loc) dirs w).
Proof.
  apply (fold_left_preserves (stable w)); [|apply stable_refl].
  intros w' d Hw'. eapply stable_trans; [exact Hw'|apply visit_stable].
Qed.

Lemma visits_searches ptree ranklist b loc dirs w :
  searches (fold_left (visit ptree ranklist b loc) dirs w) =
  searches w ++ ((fun d => (loc, d)) <$> dirs).
Proof.
  revert w. induction dirs as [|d dirs IH]; intros w; cbn [fold_left fmap list_fmap].
  - symmetry. apply app_nil_r.
  - rewrite IH, visit_searches, <- app_assoc. reflexivity.
Qed.

Lemma visits_cell_row ptree ranklist b loc dirs w s :
  cell (table (fold_left (visit ptree ranklist b loc) dirs w)) b s =
  filled ptree ranklist loc dirs s (cell (table w) b s).
Proof.
  unfold filled. revert w. induction dirs as [|d dirs IH]; intros w;
    cbn [fold_left]; [reflexivity|].
  rewrite IH, visit_cell. f_equal.
  destruct (decide (slot_index d = s)) as [->|Hne].
  - rewrite decide_True by reflexivity. reflexivity.
  - rewrite decide_False by congruence. reflexivity.
Qed.

Lemma visits_cell_other ptree ranklist b loc dirs w b' s :
  b' <> b ->
  cell (table (fold_left (visit ptree ranklist b loc) dirs w)) b' s =
  cell (table w) b' s.
Proof.
  intros Hb. revert w. induction dirs as [|d dirs IH]; intros w;
    cbn [fold_left]; [reflexivity|].
  rewrite IH, visit_cell, decide_False by congruence. reflexivity.
Qed.

(** A slot that no direction of the list owns keeps its content. *)
Lemma filled_untouched ptree ranklist loc dirs s c :
  (forall d, d ∈ dirs -> slot_index d <> s) ->
  filled ptree ranklist loc dirs s c = c.
Proof.
  unfold filled. revert c. induction dirs as [|d dirs IH]; intros c H;
    cbn [fold_left]; [reflexivity|].
  rewrite decide_False by (apply H, list_elem_of_here).
  apply IH. intros d' Hd'. apply H, list_elem_of_further, Hd'.
Qed.

(** The slot of a direction of the list is decided by that direction alone,
    when no two directions of the list share a slot. *)
Lemma filled_slot ptree ranklist loc dirs d c :
  NoDup (slot_index <$> dirs) -> d ∈ dirs ->
  filled ptree ranklist loc dirs (slot_index d) c =
  match search ptree loc d with
  | Some nt => (fun _ => entry_of ranklist d nt) <$> c
  | None => c
  end.
Proof.
  revert c. induction dirs as [|d0 dirs IH]; intros c Hnd Hd.
  - apply elem_of_nil in Hd as [].
  - rewrite fmap_cons in Hnd. apply NoDup_cons in Hnd as [Hd0 Hnd].
    unfold filled. cbn [fold_left]. fold (filled ptree ranklist loc dirs).
    apply elem_of_cons in Hd as [->|Hd].
    + rewrite decide_True by reflexivity.
      apply filled_untouched. intros d' Hd' Heq. apply Hd0.
      rewrite <- Heq. apply list_elem_of_fmap_2, Hd'.
    + rewrite decide_False.
      * apply IH; assumption.
      * intros Heq. apply Hd0. rewrite Heq. apply list_elem_of_fmap_2, Hd.
Qed.

(** *** The whole pass *)

Lemma four_writes m n a b c d w :
  exec (nghbr_gid m n a ;; nghbr_lev m n b ;; nghbr_rank m n c ;;
        nghbr_destn m n d)%prog w =
  fill m n {| gid := a; lev := b; rank := c; destn := d |} w.
Proof.
  unfold nghbr_gid, nghbr_lev, nghbr_rank, nghbr_destn, fill.
  rewrite !exec_seq, !exec_update. cbn [this searches]. f_equal.
  unfold with_nghbr, dual_write_host. cbn. do 2 f_equal.
  rewrite !wr2_wr2. apply wr2_ext. intros e. reflexivity.
Qed.

(** The slots that the initialisation loops visit. *)
Definition init_slots (nn nb : Z) : list (Z * Z) :=
  n ← seqZ 0 nn; m ← seqZ 0 nb; [(m, n)].

Lemma init_slots_elem nn nb b s :
  (b, s) ∈ init_slots nn nb <-> (0 <= b < nb /\ 0 <= s < nn).
Proof.
  unfold init_slots. rewrite list_elem_of_bind. split.
  - intros (n & Hin & Hn). apply list_elem_of_bind in Hin as (m & Hin & Hm).
    apply elem_of_cons in Hin as [[= -> ->]|Hin];
      [|apply elem_of_nil in Hin as []].
    apply elem_of_seqZ in Hn, Hm. lia.
  - intros [Hb Hs]. exists s. split; [|apply elem_of_seqZ; lia].
    apply list_elem_of_bind. exists b. split; [apply list_elem_of_here|].
    apply elem_of_seqZ; lia.
Qed.

Lemma init_nghbr_fills w :
  exec init_nghbr w =
  fold_left (fun w '(m, n) => fill m n no_neighbor w)
            (init_slots (nnghbr (this w)) (nmb (this w))) w.
Proof.
  unfold init_nghbr, init_slots. rewrite !exec_read, exec_for_each.
  rewrite fold_left_bind. apply fold_left_ext_in. intros w1 n _.
  rewrite exec_for_each, fold_left_bind.
  apply fold_left_ext_in. intros w2 m _. cbn [fold_left].
  apply four_writes.
Qed.

Lemma fills_stable (e : NeighborBlock) (l : list (Z * Z)) w :
  stable w (fold_left (fun w '(m, n) => fill m n e w) l w).
Proof.
  apply (fold_left_preserves (stable w)); [|apply stable_refl].
  intros w' [m n] Hw'. eapply stable_trans; [exact Hw'|apply fill_stable].
Qed.

Lemma fills_searches (e : NeighborBlock) (l : list (Z * Z)) w :
  searches (fold_left (fun w '(m, n) => fill m n e w) l w) = searches w.
Proof.
  apply (fold_left_preserves (fun w' => searches w' = searches w));
    [|reflexivity].
  intros w' [m n] Hw'. exact Hw'.
Qed.

Lemma fills_cell (e : NeighborBlock) (l : list (Z * Z)) w b s :
  cell (table (fold_left (fun w '(m, n) => fill m n e w) l w)) b s =
  if decide ((b, s) ∈ l) then (fun _ => e) <$> cell (table w) b s
  else cell (table w) b s.
Proof.
  revert w. induction l as [|[m n] l IH]; intros w; cbn [fold_left].
  - rewrite decide_False by apply not_elem_of_nil. reflexivity.
  - rewrite IH, fill_cell.
    destruct (decide ((m, n) = (b, s))) as [Heq|Hne].
    + rewrite (decide_True (P := (b, s) ∈ (m, n) :: l))
        by (rewrite Heq; apply list_elem_of_here).
      destruct (decide ((b, s) ∈ l)); destruct (cell (table w) b s);
        reflexivity.
    + destruct (decide ((b, s) ∈ l)) as [Hin|Hnin].
      * rewrite decide_True by (apply list_elem_of_further, Hin). reflexivity.
      * rewrite decide_False; [reflexivity|].
        rewrite elem_of_cons. intros [Heq|Hin]; [|exact (Hnin Hin)].
        apply Hne. symmetry. exact Heq.
Qed.

Lemma stable_block_loc w w' b :
  stable w w' -> block_loc (this w') b = block_loc (this w) b.
Proof.
  intros ((Hpm & _ & Hgid & _) & _). unfold block_loc. rewrite Hpm, Hgid.
  reflexivity.
Qed.

Lemma visit_all_stable ptree ranklist b w :
  stable w (visit_all ptree ranklist b w).
Proof. apply visits_stable. Qed.

Lemma search_all_visits ptree ranklist w :
  exec (search_all ptree ranklist) w =
  fold_left (fun w b => visit_all ptree ranklist b w)
            (seqZ 0 (nmb (this w))) w.
Proof.
  unfold search_all. rewrite exec_read, exec_for_each.
  apply fold_left_ext_in. intros w' b _. apply search_block_visit_all.
Qed.

Lemma blocks_stable ptree ranklist bs w :
  stable w (fold_left (fun w b => visit_all ptree ranklist b w) bs w).
Proof.
  apply (fold_left_preserves (stable w)); [|apply stable_refl].
  intros w' b Hw'. eapply stable_trans; [exact Hw'|apply visit_all_stable].
Qed.

Lemma blocks_searches ptree ranklist bs w0 w :
  stable w0 w ->
  searches (fold_left (fun w b => visit_all ptree ranklist b w) bs w) =
  searches w ++
  (b ← bs; (fun d => (block_loc (this w0) b, d)) <$>
           directions (pmesh (this w0))).
Proof.
  revert w. induction bs as [|b bs IH]; intros w Hw;
    cbn [fold_left mbind list_bind].
  - symmetry. apply app_nil_r.
  - rewrite IH by (eapply stable_trans; [exact Hw|apply visit_all_stable]).
    unfold visit_all. rewrite visits_searches, <- app_assoc.
    rewrite (stable_block_loc _ _ _ Hw).
    destruct Hw as ((-> & _) & _). reflexivity.
Qed.

Lemma blocks_cell ptree ranklist bs w0 w b s :
  NoDup bs -> stable w0 w ->
  cell (table (fold_left (fun w b => visit_all ptree ranklist b w) bs w)) b s =
  if decide (b ∈ bs)
  then filled ptree ranklist (block_loc (this w0) b)
              (directions (pmesh (this w0))) s (cell (table w) b s)
  else cell (table w) b s.
Proof.
  intros Hnd. revert w. induction Hnd as [|b0 bs Hb0 Hnd IH]; intros w Hw;
    cbn [fold_left].
  - rewrite decide_False by apply not_elem_of_nil. reflexivity.
  - rewrite IH by (eapply stable_trans; [exact Hw|apply visit_all_stable]).
    unfold visit_all.
    rewrite (stable_block_loc _ _ _ Hw).
    assert (pmesh (this w) = pmesh (this w0)) as -> by apply Hw.
    destruct (decide (b = b0)) as [->|Hne].
    + rewrite decide_False by exact Hb0.
      rewrite decide_True by apply list_elem_of_here.
      apply visits_cell_row.
    + rewrite !visits_cell_other by exact Hne.
      destruct (decide (b ∈ bs)) as [Hin|Hnin].
      * rewrite decide_True by (apply list_elem_of_further, Hin). reflexivity.
      * rewrite decide_False; [reflexivity|].
        rewrite elem_of_cons. intros [Heq|Hin]; [exact (Hne Heq)|exact (Hnin Hin)].
Qed.

Lemma set_nnghbr_exec w :
  exec set_nnghbr w =
  {| this := with_nnghbr (nnghbr_of (pmesh (this w)) (nnghbr (this w))) (this w);
     searches := searches w |}.
Proof.
  unfold set_nnghbr, nnghbr_of. rewrite exec_read, !exec_seq, !exec_if.
  destruct w as [mb tr]. destruct mb as [pm ? ? ? ? ? ? ?]. cbn [this pmesh].
  destruct (one_d pm), (two_d pm), (three_d pm); reflexivity.
Qed.

(** The state after the allocation: [nnghbr] set, the table fresh. *)
Definition allocated (w : World) : World :=
  exec realloc_nghbr (exec set_nnghbr w).

Lemma allocated_frame w : same_frame (this w) (this (allocated w)).
Proof.
  unfold allocated. rewrite set_nnghbr_exec. repeat split.
Qed.

Lemma allocated_nnghbr w :
  nnghbr (this (allocated w)) = nnghbr_of (pmesh (this w)) (nnghbr (this w)).
Proof. unfold allocated. rewrite set_nnghbr_exec. reflexivity. Qed.

Lemma allocated_table w :
  table (allocated w) =
  replicate (Z.to_nat (nmb (this w)))
    (replicate (Z.to_nat (nnghbr_of (pmesh (this w)) (nnghbr (this w))))
               fresh_nghbr).
Proof. unfold allocated. rewrite set_nnghbr_exec. reflexivity. Qed.

Lemma allocated_searches w : searches (allocated w) = searches w.
Proof. unfold allocated. rewrite set_nnghbr_exec. reflexivity. Qed.

(** The state after the initialisation loops. *)
Definition initialised (w : World) : World := exec init_nghbr (allocated w).

Lemma initialised_stable w : stable (allocated w) (initialised w).
Proof. unfold initialised. rewrite init_nghbr_fills. apply fills_stable. Qed.

Lemma initialised_searches w : searches (initialised w) = searches w.
Proof.
  unfold initialised. rewrite init_nghbr_fills, fills_searches.
  apply allocated_searches.
Qed.

Lemma initialised_shape w :
  shape (initialised w) =
  replicate (Z.to_nat (nmb (this w)))
            (Z.to_nat (nnghbr_of (pmesh (this w)) (nnghbr (this w)))).
Proof.
  destruct (initialised_stable w) as (_ & _ & _ & _ & ->).
  unfold shape. rewrite allocated_table, fmap_replicate, length_replicate.
  reflexivity.
Qed.

Lemma initialised_cell w b s :
  0 <= b < nmb (this w) ->
  0 <= s < nnghbr_of (pmesh (this w)) (nnghbr (this w)) ->
  cell (table (initialised w)) b s = Some no_neighbor.
Proof.
  intros Hb Hs. unfold initialised. rewrite init_nghbr_fills, fills_cell.
  rewrite allocated_nnghbr.
  assert (nmb (this (allocated w)) = nmb (this w)) as -> by apply allocated_frame.
  rewrite decide_True by (apply init_slots_elem; lia).
  rewrite allocated_table, cell_replicate by lia. reflexivity.
Qed.

(** The state after the loop over the blocks. *)
Definition searched (ptree : MeshBlockTree) (ranklist : Z -> Z) (w : World)
    : World :=
  exec (search_all ptree ranklist) (initialised w).

Lemma SetNeighbors_exec ptree ranklist w :
  exec (SetNeighbors ptree ranklist) w =
  exec publish_nghbr (searched ptree ranklist w).
Proof. unfold SetNeighbors. rewrite !exec_seq. reflexivity. Qed.

Lemma searched_stable ptree ranklist w :
  stable (allocated w) (searched ptree ranklist w).
Proof.
  unfold searched. rewrite search_all_visits.
  eapply stable_trans; [apply initialised_stable|apply blocks_stable].
Qed.

Lemma searched_frame ptree ranklist w :
  same_frame (this w) (this (searched ptree ranklist w)).
Proof.
  eapply same_frame_trans; [apply allocated_frame|apply searched_stable].
Qed.

Lemma initialised_block_loc w b :
  block_loc (this (initialised w)) b = block_loc (this w) b.
Proof.
  rewrite (stable_block_loc _ _ _ (initialised_stable w)).
  unfold block_loc.
  destruct (allocated_frame w) as (-> & _ & -> & _). reflexivity.
Qed.

Lemma initialised_pmesh w : pmesh (this (initialised w)) = pmesh (this w).
Proof.
  destruct (initialised_stable w) as ((-> & _) & _). apply allocated_frame.
Qed.

Lemma initialised_nmb w : nmb (this (initialised w)) = nmb (this w).
Proof.
  destruct (initialised_stable w) as ((_ & -> & _) & _). apply allocated_frame.
Qed.

Lemma searched_searches ptree ranklist w :
  searches (searched ptree ranklist w) =
  searches w ++
  (b ← seqZ 0 (nmb (this w));
   (fun d => (block_loc (this w) b, d)) <$> directions (pmesh (this w))).
Proof.
  unfold searched. rewrite search_all_visits.
  rewrite (blocks_searches _ _ _ (initialised w)) by apply stable_refl.
  rewrite initialised_searches, initialised_nmb, initialised_pmesh.
  f_equal. induction (seqZ 0 (nmb (this w))) as [|b bs IH];
    cbn [mbind list_bind]; [reflexivity|].
  rewrite IH, initialised_block_loc. reflexivity.
Qed.

Lemma searched_cell ptree ranklist w b s :
  0 <= b < nmb (this w) ->
  0 <= s < nnghbr_of (pmesh (this w)) (nnghbr (this w)) ->
  cell (table (searched ptree ranklist w)) b s =
  filled ptree ranklist (block_loc (this w) b) (directions (pmesh (this w))) s
         (Some no_neighbor).
Proof.
  intros Hb Hs. unfold searched. rewrite search_all_visits.
  rewrite (blocks_cell _ _ _ (initialised w))
    by (apply NoDup_seqZ || apply stable_refl).
  rewrite initialised_nmb, decide_True by (apply elem_of_seqZ; lia).
  rewrite initialised_block_loc, initialised_pmesh, initialised_cell by lia.
  reflexivity.
Qed.

(** The facts about a call of [SetNeighbors] from which the statements
    below follow. *)
Lemma SetNeighbors_facts ptree ranklist w :
  let mb := this w in
  let w' := exec (SetNeighbors ptree ranklist) w in
  same_frame mb (this w') /\
  nnghbr (this w') = nnghbr_of (pmesh mb) (nnghbr mb) /\
  shape w' = replicate (Z.to_nat (nmb mb))
                       (Z.to_nat (nnghbr_of (pmesh mb) (nnghbr mb))) /\
  in_sync (nghbr (this w')) /\
  searches w' =
    searches w ++
    (b ← seqZ 0 (nmb mb);
     (fun d => (block_loc mb b, d)) <$> directions (pmesh mb)) /\
  forall b s, 0 <= b < nmb mb ->
    0 <= s < nnghbr_of (pmesh mb) (nnghbr mb) ->
    cell (table w') b s =
    filled ptree ranklist (block_loc mb b) (directions (pmesh mb)) s
           (Some no_neighbor).
Proof.
  cbv zeta. rewrite SetNeighbors_exec.
  pose proof (searched_stable ptree ranklist w) as (HF & Hn & _ & _ & Hsh).
  pose proof (searched_frame ptree ranklist w) as HF'.
  pose proof (searched_searches ptree ranklist w) as Hse.
  pose proof (searched_cell ptree ranklist w) as Hc.
  pose proof (initialised_shape w) as Hsh'.
  pose proof (initialised_stable w) as (_ & _ & _ & _ & Hsh'').
  rewrite allocated_nnghbr in Hn.
  set (w4 := searched ptree ranklist w) in *.
  unfold publish_nghbr. rewrite exec_seq, !exec_update. cbn [this searches].
  assert (forall mb4, h_view (nghbr (with_nghbr dual_sync_device
            (with_nghbr dual_modify_host mb4))) = h_view (nghbr mb4)) as Hh
    by reflexivity.
  repeat split; try apply HF'; try exact Hn; try exact Hse.
  - unfold shape, table. cbn [this]. rewrite Hh.
    fold (table w4). fold (shape w4). congruence.
  - intros b s Hb Hs. unfold table. cbn [this]. rewrite Hh. apply Hc; lia.
Qed.

(** *** Statements about [SetNeighbors] *)

(** Every cell of the final table, whatever the flags: the content that the
    searches of its block make of the initial value. *)
Lemma SetNeighbors_cell_inv ptree ranklist w b s e :
  cell (table (exec (SetNeighbors ptree ranklist) w)) b s = Some e ->
  0 <= b < nmb (this w) /\
  0 <= s < nnghbr_of (pmesh (this w)) (nnghbr (this w)) /\
  filled ptree ranklist (block_loc (this w) b) (directions (pmesh (this w))) s
         (Some no_neighbor) = Some e.
Proof.
  intros He.
  destruct (SetNeighbors_facts ptree ranklist w) as (_ & _ & Hsh & _ & _ & Hc).
  apply shape_extents in Hsh as [Hlen Hrows].
  assert (is_Some (cell (table (exec (SetNeighbors ptree ranklist) w)) b s))
    as Hs by eauto.
  apply (cell_is_Some _ _ _ _ _ Hlen Hrows) in Hs.
  assert (0 <= b < nmb (this w)) as Hb by lia.
  assert (0 <= s < nnghbr_of (pmesh (this w)) (nnghbr (this w))) as Hs' by lia.
  rewrite Hc in He by assumption. auto.
Qed.

(** The slot of a direction of the mesh after the call. *)
Lemma SetNeighbors_slot ptree ranklist w b d :
  dims_ok (pmesh (this w)) ->
  0 <= b < nmb (this w) -> d ∈ directions (pmesh (this w)) ->
  cell (table (exec (SetNeighbors ptree ranklist) w)) b (slot_index d) =
  Some (match search ptree (block_loc (this w) b) d with
        | Some nt => entry_of ranklist d nt
        | None => no_neighbor
        end).
Proof.
  intros Hok Hb Hd.
  destruct (SetNeighbors_facts ptree ranklist w) as (_ & _ & _ & _ & _ & Hc).
  rewrite Hc; [|exact Hb|].
  - rewrite filled_slot by (apply directions_NoDup || exact Hd).
    destruct (search ptree (block_loc (this w) b) d); reflexivity.
  - split; [apply (directions_slot_range _ _ Hd)|].
    apply directions_slot_lt; assumption.
Qed.

(** C4. [SetNeighbors] allocates 2, 8 or 26 slots for every block of a
    one-, two- or three-dimensional mesh; the loops that precede the search
    leave [no_neighbor], -1 in all four fields, in every slot, and no search
    has been issued by then; a slot whose search finds nothing still holds
    [no_neighbor] when the call returns. *)
Theorem SetNeighbors_allocates_and_initialises ptree ranklist w :
  dims_ok (pmesh (this w)) ->
  let mb := this w in
  let N := if one_d (pmesh mb) then 2 else if two_d (pmesh mb) then 8 else 26 in
  let w' := exec (SetNeighbors ptree ranklist) w in
  (nnghbr (this w') = N /\
   length (table w') = Z.to_nat (nmb mb) /\
   forall row, row ∈ table w' -> length row = Z.to_nat N) /\
  (w' = exec publish_nghbr (exec (search_all ptree ranklist) (initialised w)) /\
   table (initialised w) =
     replicate (Z.to_nat (nmb mb)) (replicate (Z.to_nat N) no_neighbor) /\
   searches (initialised w) = searches w) /\
  (forall b d, 0 <= b < nmb mb -> d ∈ directions (pmesh mb) ->
     search ptree (block_loc mb b) d = None ->
     cell (table w') b (slot_index d) = Some no_neighbor).
Proof.
  intros Hok. cbv zeta.
  rewrite <- (nnghbr_of_dims _ (nnghbr (this w)) Hok).
  destruct (SetNeighbors_facts ptree ranklist w) as (_ & Hn & Hsh & _).
  apply shape_extents in Hsh as [Hlen Hrows].
  split; [|split].
  - auto.
  - split; [apply SetNeighbors_exec|]. split; [|apply initialised_searches].
    apply table_replicate; [apply initialised_shape|].
    intros b s Hb Hs. apply initialised_cell; lia.
  - intros b d Hb Hd Hnone.
    rewrite SetNeighbors_slot by assumption. rewrite Hnone. reflexivity.
Qed.




(** C9. After the call every slot of every block is either [no_neighbor], or
    was filled from one node of the tree: the node found by the search of the
    slot's direction or, on an x1 face, the child of it that [GetLeaf]
    selected.  Then the slot has that node's gid and level, the rank that the
    rank list gives for that gid, and a slot index, not negative, in
    [destn]. *)
Theorem SetNeighbors_slots_all_or_nothing ptree ranklist w b s e :
  cell (table (exec (SetNeighbors ptree ranklist) w)) b s = Some e ->
  e = no_neighbor \/
  exists d nt,
    d ∈ directions (pmesh (this w)) /\ s = slot_index d /\
    search ptree (block_loc (this w) b) d = Some nt /\
    gid e = gid_ (recorded_node d nt) /\
    lev e = level (loc_ (recorded_node d nt)) /\
    rank e = ranklist (gid_ (recorded_node d nt)) /\
    destn e = slot_index (opposite d) /\ 0 <= destn e.
Proof.
  intros He. apply SetNeighbors_cell_inv in He as (_ & _ & He).
  destruct (decide (s ∈ slot_index <$> directions (pmesh (this w))))
    as [Hin|Hnin].
  - apply list_elem_of_fmap in Hin as (d & -> & Hd).
    rewrite filled_slot in He by (apply directions_NoDup || exact Hd).
    destruct (search ptree (block_loc (this w) b) d) as [nt|] eqn:Hs.
    + right. exists d, nt. injection He as <-. cbn.
      repeat split; try assumption.
      apply (directions_slot_range (pmesh (this w))), directions_opposite, Hd.
    + left. congruence.
  - left. rewrite filled_untouched in He; [congruence|].
    intros d Hd Heq. apply Hnin. rewrite <- Heq. apply list_elem_of_fmap_2, Hd.
Qed.

(** C10. A call of [SetNeighbors] leaves the gid list, the level list, the
    boundary flags and the cost array of the object as they were, and the
    mesh and the number of blocks with them, for every tree and every rank
    list; of the object, only [nnghbr] and [nghbr] can differ. *)
Theorem SetNeighbors_frame ptree ranklist w :
  let mb := this w in
  let mb' := this (exec (SetNeighbors ptree ranklist) w) in
  mbgid mb' = mbgid mb /\ mblev mb' = mblev mb /\ mbbcs mb' = mbbcs mb /\
  mbcost mb' = mbcost mb /\ pmesh mb' = pmesh mb /\ nmb mb' = nmb mb /\
  mb' = with_nnghbr (nnghbr mb') (with_nghbr (fun _ => nghbr mb') mb).
Proof.
  cbv zeta.
  destruct (SetNeighbors_facts ptree ranklist w) as ((H1&H2&H3&H4&H5&H6) & _).
  repeat split; try assumption.
  destruct (this (exec (SetNeighbors ptree ranklist) w)). cbn in *.
  unfold with_nnghbr, with_nghbr. cbn. congruence.
Qed.

(** C8, as the code has it.  [SetNeighbors] has no failure path and makes no
    test of the rank list: for every rank list the call returns with the
    table on the device equal to the table on the host, and the rank of
    every filled slot is what the rank list gives at the slot's gid. *)
Theorem SetNeighbors_always_publishes ptree ranklist w :
  let w' := exec (SetNeighbors ptree ranklist) w in
  in_sync (nghbr (this w')) /\
  d_view (nghbr (this w')) = table w' /\
  forall b s e, cell (d_view (nghbr (this w'))) b s = Some e ->
    e = no_neighbor \/ rank e = ranklist (gid e).
Proof.
  cbv zeta.
  destruct (SetNeighbors_facts ptree ranklist w) as (_ & _ & _ & Hsync & _).
  split; [exact Hsync|]. split; [apply Hsync|].
  destruct Hsync as [-> _]. fold (table (exec (SetNeighbors ptree ranklist) w)).
  intros b s e He. apply SetNeighbors_cell_inv in He as (_ & _ & He).
  destruct (decide (s ∈ slot_index <$> directions (pmesh (this w))))
    as [Hin|Hnin].
  - apply list_elem_of_fmap in Hin as (d & -> & Hd).
    rewrite filled_slot in He by (apply directions_NoDup || exact Hd).
    destruct (search ptree (block_loc (this w) b) d) as [nt|].
    + right. injection He as <-. reflexivity.
    + left. congruence.
  - left. rewrite filled_untouched in He; [congruence|].
    intros d Hd Heq. apply Hnin. rewrite <- Heq. apply list_elem_of_fmap_2, Hd.
Qed.
End Neighbors.


(** ** Searches in the modelled tree *)

(** The offset of a direction along an axis. *)
Definition offset (a : Axis) (d : Dir) : Z :=
  match a with X1 => d.1.1 | X2 => d.1.2 | X3 => d.2 end.

(** A location inside the mesh at its level. *)
Definition in_domain (pm : Mesh) (loc : LogicalLocation) : Prop :=
  forall a, 0 <= coord a loc < extent pm a (level loc).

(** [locN] is the location, at the level of [locB], that lies one block from
    [locB] in direction [d], around a periodic axis where the mesh has one. *)
Definition adjacent (pm : Mesh) (locB : LogicalLocation) (d : Dir)
    (locN : LogicalLocation) : Prop :=
  level locN = level locB /\
  forall a, BlockTree.shifted pm a (level locB) (coord a locB) (offset a d) =
            Some (coord a locN).

(** The search in direction [d] leaves the mesh through a face that is not
    periodic. *)
Definition leaves_domain (pm : Mesh) (loc : LogicalLocation) (d : Dir) : Prop :=
  exists a, offset a d <> 0 /\
    ~ (0 <= coord a loc + offset a d < extent pm a (level loc)) /\
    BlockTree.periodic_axis pm a = false.

(** The gid of the [b]-th block of the pack, [mbgid.h_view(b)]. *)
Definition block_gid (mb : MeshBlock) (b : Z) : Z :=
  rd1 0 (h_view (mbgid mb)) b.

Lemma shifted_back pm a ll x o x' :
  o = -1 \/ o = 0 \/ o = 1 ->
  0 <= x < extent pm a ll ->
  BlockTree.shifted pm a ll x o = Some x' ->
  BlockTree.shifted pm a ll x' (- o) = Some x.
Proof.
  intros Ho Hx. unfold BlockTree.shifted.
  set (e := extent pm a ll) in *.
  assert ((-1) mod e = e - 1) as Hm1.
  { replace (-1) with (e - 1 + -1 * e) by lia.
    rewrite Z.mod_add by lia. apply Z.mod_small. lia. }
  assert (e mod e = 0) as Hme by (apply Z.mod_same; lia).
  destruct Ho as [->|[->| ->]].
  - (* towards the low end *)
    change (- (-1)) with 1. change (-1 =? 0) with false.
    change (1 =? 0) with false. cbv iota.
    destruct (Z.leb_spec 0 (x + -1)) as [Hlo|Hlo].
    + destruct (Z.ltb_spec (x + -1) e); [|lia]. cbn [andb]. intros [= <-].
      destruct (Z.leb_spec 0 (x + -1 + 1)); [|lia].
      destruct (Z.ltb_spec (x + -1 + 1) e); [|lia]. cbn [andb]. f_equal. lia.
    + cbn [andb]. destruct (BlockTree.periodic_axis pm a); [|discriminate].
      intros [= <-]. assert (x = 0) as -> by lia.
      change (0 + -1) with (-1). rewrite Hm1.
      replace (e - 1 + 1) with e by lia.
      destruct (Z.ltb_spec e e); [lia|]. rewrite andb_false_r, Hme.
      reflexivity.
  - intros [= <-]. reflexivity.
  - (* towards the high end *)
    change (- (1)) with (-1). change (-1 =? 0) with false.
    change (1 =? 0) with false. cbv iota.
    destruct (Z.leb_spec 0 (x + 1)); [|lia]. cbn [andb].
    destruct (Z.ltb_spec (x + 1) e) as [Hhi|Hhi].
    + intros [= <-].
      destruct (Z.leb_spec 0 (x + 1 + -1)); [|lia].
      destruct (Z.ltb_spec (x + 1 + -1) e); [|lia]. cbn [andb]. f_equal. lia.
    + destruct (BlockTree.periodic_axis pm a); [|discriminate].
      intros [= <-]. assert (x + 1 = e) as -> by lia. rewrite Hme.
      change (0 + -1) with (-1). change (0 <=? -1) with false.
      cbn [andb]. rewrite Hm1. f_equal. lia.
Qed.

Lemma offset_opposite a d : offset a (opposite d) = - offset a d.
Proof. destruct d as [[n m] l], a; reflexivity. Qed.

Lemma admitted_offset a d :
  admitted d -> offset a d = -1 \/ offset a d = 0 \/ offset a d = 1.
Proof. destruct d as [[n m] l]. intros (?&?&?&_). destruct a; assumption. Qed.

Lemma adjacent_back pm locB d locN :
  admitted d -> in_domain pm locB ->
  adjacent pm locB d locN -> adjacent pm locN (opposite d) locB.
Proof.
  intros Had Hdom [Hlev Hsh]. split; [congruence|].
  intros a. rewrite offset_opposite, Hlev.
  apply shifted_back; [apply admitted_offset, Had| |apply Hsh].
  apply Hdom.
Qed.

(** The search towards an adjacent location is the descent to it. *)
Lemma FindNeighbor_adjacent pm root locB d locN :
  adjacent pm locB d locN ->
  search (BlockTree.FindNeighbor pm) root locB d = BlockTree.FindLeaf root locN.
Proof.
  intros [Hlev Hsh]. destruct d as [[n m] l].
  unfold search, BlockTree.FindNeighbor, BlockTree.FindLeaf.
  pose proof (Hsh X1) as H1. pose proof (Hsh X2) as H2.
  pose proof (Hsh X3) as H3. cbn [offset coord fst snd] in H1, H2, H3.
  rewrite H1, H2, H3, Hlev. reflexivity.
Qed.

(** A search that leaves the mesh through a face that is not periodic
    returns the null pointer. *)
Lemma FindNeighbor_leaves pm root loc d :
  leaves_domain pm loc d ->
  search (BlockTree.FindNeighbor pm) root loc d = None.
Proof.
  intros (a & Ho & Hout & Hper). destruct d as [[n m] l].
  unfold search, BlockTree.FindNeighbor.
  assert (BlockTree.shifted pm a (level loc) (coord a loc) (offset a (n, m, l))
          = None) as Hsh.
  { unfold BlockTree.shifted. rewrite Hper.
    destruct (Z.eqb_spec (offset a (n, m, l)) 0); [contradiction|].
    destruct (Z.leb_spec 0 (coord a loc + offset a (n, m, l))),
      (Z.ltb_spec (coord a loc + offset a (n, m, l)) (extent pm a (level loc)));
      cbn [andb]; try reflexivity. lia. }
  destruct a; cbn [coord offset fst snd] in Hsh; rewrite Hsh;
    repeat match goal with
    | |- match ?x with _ => _ end = _ => destruct x
    end; reflexivity.
Qed.

(** The slot that a leaf found in direction [d] fills. *)
Lemma entry_of_leaf GL ranklist d nt :
  pleaf_ nt = None ->
  entry_of GL ranklist d nt =
  {| gid := gid_ nt; lev := level (loc_ nt); rank := ranklist (gid_ nt);
     destn := slot_index (opposite d) |}.
Proof.
  intros Hleaf. unfold entry_of, recorded_node. destruct d as [[n m] l].
  rewrite Hleaf. destruct ((m =? 0) && (l =? 0)); reflexivity.
Qed.

(** C1. The slot protocol is reciprocal.  For whatever tree search and child
    selection, the [destn] written into the slot of a searched direction is
    the slot index of the opposite direction, and in a three-dimensional mesh
    the searched directions are all the 26 admitted offsets.  With the tree
    search as the spec describes it: when N is the block adjacent to B in
    direction [d], at the level of B, and both are leaves of the tree at
    their locations, the search from B fills slot [slot_index d] with N and
    with a [destn] that names the slot of N's table filled with B, whose
    [destn] in turn is [slot_index d]. *)
Theorem neighbor_slots_reciprocal :
  (forall FN GL fresh ptree ranklist w b d nt,
     dims_ok (pmesh (this w)) -> 0 <= b < nmb (this w) ->
     d ∈ directions (pmesh (this w)) ->
     search FN ptree (block_loc (this w) b) d = Some nt ->
     admitted d /\
     destn <$> cell (table (exec (SetNeighbors FN GL fresh ptree ranklist) w))
                    b (slot_index d)
     = Some (slot_index (opposite d))) /\
  (forall pm d, multi_d pm = true -> three_d pm = true ->
     admitted d -> d ∈ directions pm) /\
  (forall pm root ranklist freshB freshN wB wN bB bN d nodeB nodeN,
     pmesh (this wB) = pm -> pmesh (this wN) = pm -> dims_ok pm ->
     d ∈ directions pm ->
     0 <= bB < nmb (this wB) -> 0 <= bN < nmb (this wN) ->
     let locB := block_loc (this wB) bB in
     let locN := block_loc (this wN) bN in
     in_domain pm locB -> adjacent pm locB d locN ->
     BlockTree.FindLeaf root locB = Some nodeB -> pleaf_ nodeB = None ->
     gid_ nodeB = block_gid (this wB) bB ->
     BlockTree.FindLeaf root locN = Some nodeN -> pleaf_ nodeN = None ->
     gid_ nodeN = block_gid (this wN) bN ->
     let tB := table (exec (SetNeighbors (BlockTree.FindNeighbor pm)
                              BlockTree.GetLeaf freshB root ranklist) wB) in
     let tN := table (exec (SetNeighbors (BlockTree.FindNeighbor pm)
                              BlockTree.GetLeaf freshN root ranklist) wN) in
     exists eB eN,
       cell tB bB (slot_index d) = Some eB /\
       gid eB = block_gid (this wN) bN /\
       cell tN bN (destn eB) = Some eN /\
       gid eN = block_gid (this wB) bB /\
       destn eN = slot_index d).
Proof.
  split; [|split].
  - intros FN GL fresh ptree ranklist w b d nt Hok Hb Hd Hs.
    split; [eapply directions_admitted; exact Hd|].
    rewrite SetNeighbors_slot by assumption. rewrite Hs. reflexivity.
  - apply directions_3d.
  - intros pm root ranklist freshB freshN wB wN bB bN d nodeB nodeN
      HpB HpN Hok Hd HbB HbN locB locN Hdom Hadj HfB HlB HgB HfN HlN HgN tB tN.
    pose proof (directions_admitted _ _ Hd) as Had.
    pose proof (adjacent_back _ _ _ _ Had Hdom Hadj) as Hback.
    exists (entry_of BlockTree.GetLeaf ranklist d nodeN),
           (entry_of BlockTree.GetLeaf ranklist (opposite d) nodeB).
    rewrite !entry_of_leaf by assumption. cbn [gid destn].
    rewrite opposite_involutive.
    subst tB tN.
    rewrite !SetNeighbors_slot
      by (rewrite ?HpB, ?HpN; try assumption; apply directions_opposite, Hd).
    fold locB locN.
    rewrite (FindNeighbor_adjacent _ _ _ _ _ Hadj), HfN.
    rewrite (FindNeighbor_adjacent _ _ _ _ _ Hback), HfB.
    rewrite !entry_of_leaf by assumption. rewrite opposite_involutive.
    repeat split; assumption.
Qed.

(** C7. With the tree search as the spec describes it, a search that leaves
    the mesh through a face that is not periodic returns the null pointer;
    the call of [SetNeighbors] returns all the same with its table
    published, and the slot of that direction holds [no_neighbor]. *)
Theorem boundary_is_no_neighbor pm root ranklist fresh w b d :
  pmesh (this w) = pm -> dims_ok pm ->
  0 <= b < nmb (this w) -> d ∈ directions pm ->
  leaves_domain pm (block_loc (this w) b) d ->
  let w' := exec (SetNeighbors (BlockTree.FindNeighbor pm) BlockTree.GetLeaf
                    fresh root ranklist) w in
  search (BlockTree.FindNeighbor pm) root (block_loc (this w) b) d = None /\
  in_sync (nghbr (this w')) /\
  cell (table w') b (slot_index d) = Some no_neighbor.
Proof.
  intros Hpm Hok Hb Hd Hout. cbv zeta.
  pose proof (FindNeighbor_leaves pm root _ _ Hout) as Hnone.
  split; [exact Hnone|]. split.
  - apply SetNeighbors_facts.
  - rewrite SetNeighbors_slot by (rewrite ?Hpm; assumption).
    rewrite Hnone. reflexivity.
Qed.

(** C8 as the spec states it: whenever a search of the pass finds a node
    whose recorded gid has no entry among the [nranks] entries of the rank
    list, the call publishes nothing, that is, the device copy of the table
    is what it was before the call. *)
Definition aborts_on_missing_rank
    (FN : MeshBlockTree -> LogicalLocation -> Z -> Z -> Z -> option MeshBlockTree)
    (GL : MeshBlockTree -> Z -> Z -> Z -> MeshBlockTree)
    (fresh : NeighborBlock) (nranks : Z) (ptree : MeshBlockTree)
    (ranklist : Z -> Z) (w : World) : Prop :=
  (exists b d nt,
     0 <= b < nmb (this w) /\ d ∈ directions (pmesh (this w)) /\
     search FN ptree (block_loc (this w) b) d = Some nt /\
     ~ (0 <= gid_ (recorded_node GL d nt) < nranks)) ->
  d_view (nghbr (this (exec (SetNeighbors FN GL fresh ptree ranklist) w))) =
  d_view (nghbr (this w)).


(** ** Examples *)

Module Examples.

Import BlockTree.

Definition loc (x1 x2 x3 ll : Z) : LogicalLocation :=
  {| lx1 := x1; lx2 := x2; lx3 := x3; level := ll |}.

Definition leaf (x1 x2 x3 ll g : Z) : MeshBlockTree :=
  TreeNode (loc x1 x2 x3 ll) g None.

Definition node (x1 x2 x3 ll : Z) (cs : list MeshBlockTree) : MeshBlockTree :=
  TreeNode (loc x1 x2 x3 ll) (-1) (Some cs).

Definition bcs_all (f : BoundaryFlag) : BoundaryFace -> BoundaryFlag :=
  fun _ => f.

(** The storage a constructor starts from. *)
Definition raw : World :=
  {| this := {| pmesh := {| one_d := false; two_d := false; three_d := false;
                            multi_d := false; nx2 := 0; nx3 := 0;
                            nmb_rootx1 := 0; nmb_rootx2 := 0; nmb_rootx3 := 0;
                            root_level := 0; mesh_bcs := bcs_all undef;
                            lloclist := fun _ => loc 0 0 0 0 |};
                nmb := 0; mbgid := dual_alloc []; mblev := dual_alloc [];
                mbbcs := []; mbcost := []; nnghbr := 0;
                nghbr := dual_alloc [] |};
     searches := [] |}.

(** A one-dimensional mesh of four root blocks, not periodic. *)
Definition line4_locs (g : Z) : LogicalLocation := loc g 0 0 2.

Definition line4_mesh : Mesh :=
  {| one_d := true; two_d := false; three_d := false; multi_d := false;
     nx2 := 1; nx3 := 1;
     nmb_rootx1 := 4; nmb_rootx2 := 1; nmb_rootx3 := 1;
     root_level := 2; mesh_bcs := bcs_all outflow;
     lloclist := line4_locs |}.

Definition line4_tree : MeshBlockTree :=
  node 0 0 0 0
    [ node 0 0 0 1 [ leaf 0 0 0 2 0; leaf 1 0 0 2 1 ];
      node 1 0 0 1 [ leaf 2 0 0 2 2; leaf 3 0 0 2 3 ] ].

Definition line4_ranks (g : Z) : Z := g `quot` 2.

Definition line4_built : World :=
  exec (MeshBlock_ctor undef line4_mesh 0 4) raw.

Abbreviation line4_done :=
  (exec (SetNeighbors (FindNeighbor line4_mesh) GetLeaf no_neighbor
                     line4_tree line4_ranks) line4_built).

(** A two-dimensional mesh of 2x2 root blocks whose block at (0,1) is
    refined; gids in the order of the leaves of the tree. *)
Definition quad_locs (g : Z) : LogicalLocation :=
  if g =? 0 then loc 0 0 0 1
  else if g =? 1 then loc 1 0 0 1
  else if g =? 2 then loc 0 2 0 2
  else if g =? 3 then loc 1 2 0 2
  else if g =? 4 then loc 0 3 0 2
  else if g =? 5 then loc 1 3 0 2
  else loc 1 1 0 1.

Definition quad_mesh : Mesh :=
  {| one_d := false; two_d := true; three_d := false; multi_d := true;
     nx2 := 16; nx3 := 1;
     nmb_rootx1 := 2; nmb_rootx2 := 2; nmb_rootx3 := 1;
     root_level := 1; mesh_bcs := bcs_all outflow;
     lloclist := quad_locs |}.

Definition quad_refined : MeshBlockTree :=
  node 0 1 0 1 [ leaf 0 2 0 2 2; leaf 1 2 0 2 3; leaf 0 3 0 2 4; leaf 1 3 0 2 5 ].

Definition quad_tree : MeshBlockTree :=
  node 0 0 0 0 [ leaf 0 0 0 1 0; leaf 1 0 0 1 1; quad_refined; leaf 1 1 0 1 6 ].

Definition quad_ranks (g : Z) : Z := if g <? 0 then 99 else 0.

Definition quad_built : World :=
  exec (MeshBlock_ctor undef quad_mesh 0 7) raw.

Abbreviation quad_done :=
  (exec (SetNeighbors (FindNeighbor quad_mesh) GetLeaf no_neighbor
                     quad_tree quad_ranks) quad_built).

(** A three-dimensional mesh of 2x2x2 root blocks, not refined. *)
Definition cube_locs (g : Z) : LogicalLocation :=
  loc (g `mod` 2) ((g `div` 2) `mod` 2) ((g `div` 4) `mod` 2) 1.

Definition cube_mesh : Mesh :=
  {| one_d := false; two_d := false; three_d := true; multi_d := true;
     nx2 := 16; nx3 := 16;
     nmb_rootx1 := 2; nmb_rootx2 := 2; nmb_rootx3 := 2;
     root_level := 1; mesh_bcs := bcs_all reflect;
     lloclist := cube_locs |}.

Definition cube_tree : MeshBlockTree :=
  node 0 0 0 0
    [ leaf 0 0 0 1 0; leaf 1 0 0 1 1; leaf 0 1 0 1 2; leaf 1 1 0 1 3;
      leaf 0 0 1 1 4; leaf 1 0 1 1 5; leaf 0 1 1 1 6; leaf 1 1 1 1 7 ].

Definition cube_built : World :=
  exec (MeshBlock_ctor undef cube_mesh 0 8) raw.

Abbreviation cube_done :=
  (exec (SetNeighbors (FindNeighbor cube_mesh) GetLeaf no_neighbor
                     cube_tree (fun _ => 0)) cube_built).

End Examples.

(** ** The statements at the examples *)

Import BlockTree Examples.

Ltac in_range :=
  split; [vm_compute; discriminate | vm_compute; reflexivity].

Lemma line4_dims_ok : dims_ok line4_mesh.
Proof. left. repeat split. Qed.

Lemma quad_dims_ok : dims_ok quad_mesh.
Proof. right; left. repeat split. Qed.

Lemma cube_dims_ok : dims_ok cube_mesh.
Proof. right; right. repeat split. Qed.

(** C2, at the mesh whose block (0,1) is refined.  The search from block 0
    in the +x2 direction ends at the refined node; slot 3 of block 0 gets
    that node's own gid -1 and level 1, and the rank read at -1, where the
    child on the facing side is leaf 2 at level 2.  The x1 loop does
    descend: the -x1 search from block 6 ends at the same node and slot 0 of
    block 6 gets leaf 3, the child on the side facing block 6. *)
Theorem x2face_records_refined_node :
  search (FindNeighbor quad_mesh) quad_tree (block_loc (this quad_built) 0)
         (0, 1, 0) = Some quad_refined /\
  pleaf_ quad_refined <> None /\
  cell (table quad_done) 0 (slot_index (0, 1, 0)) =
    Some {| gid := -1; lev := 1; rank := 99; destn := 2 |} /\
  GetLeaf quad_refined 0 0 0 = leaf 0 2 0 2 2 /\
  search (FindNeighbor quad_mesh) quad_tree (block_loc (this quad_built) 6)
         (-1, 0, 0) = Some quad_refined /\
  cell (table quad_done) 6 (slot_index (-1, 0, 0)) =
    Some {| gid := 3; lev := 2; rank := 0; destn := 1 |}.
Proof. repeat split; try discriminate; vm_compute; reflexivity. Qed.

(** C8 as stated fails: in the line of four blocks with a rank list of two
    entries, block 1 finds block 2, whose gid has no entry, and the table is
    published all the same. *)
Lemma missing_rank_still_publishes :
  ~ aborts_on_missing_rank (FindNeighbor line4_mesh) GetLeaf no_neighbor 2
      line4_tree line4_ranks line4_built.
Proof.
  unfold aborts_on_missing_rank. intros H.
  assert (d_view (nghbr (this line4_done)) = d_view (nghbr (this line4_built)))
    as Heq.
  { apply H. exists 1, (1, 0, 0), (leaf 2 0 0 2 2).
    split; [in_range|]. split; [apply list_elem_of_further, list_elem_of_here|].
    split; [reflexivity|]. vm_compute. intros [_ Hlt]. discriminate Hlt. }
  vm_compute in Heq. discriminate Heq.
Qed.

Lemma ctor_classifies_faces_witness :
  0 <= 5 < 8 /\
  (physical cube_mesh (this cube_built) 5 (outer X1) /\
   is_block (this cube_built) 5 (inner X1)) /\
  (physical cube_mesh (this cube_built) 5 (inner X2) /\
   is_block (this cube_built) 5 (outer X2)).
Proof.
  split; [lia|]. unfold cube_built.
  destruct (ctor_classifies_faces undef cube_mesh 0 8 raw 5 ltac:(lia))
    as (_ & _ & H).
  assert (forall a, coord a (cube_locs 5) = 0 \/ coord a (cube_locs 5) = 1)
    as Hco by (intros []; vm_compute; auto).
  specialize (H ltac:(intros []; reflexivity) ltac:(intros []; reflexivity)
                ltac:(reflexivity) Hco ltac:(intros f; discriminate)).
  split.
  - destruct (H X1) as (_ & H2 & H3 & _).
    split; [apply H3|apply H2]; vm_compute; reflexivity.
  - destruct (H X2) as (H1 & _ & _ & H4).
    split; [apply H1|apply H4]; vm_compute; reflexivity.
Defined.

Lemma ctor_degenerate_axes_physical_witness :
  0 <= 2 < 4 /\ nx2 line4_mesh = 1 /\
  physical line4_mesh (this line4_built) 2 inner_x2 /\
  physical line4_mesh (this line4_built) 2 outer_x2.
Proof.
  split; [lia|]. split; [reflexivity|]. unfold line4_built.
  apply (ctor_degenerate_axes_physical undef line4_mesh 0 4 raw 2 ltac:(lia)).
  reflexivity.
Defined.

Lemma SetNeighbors_allocates_and_initialises_witness :
  dims_ok line4_mesh /\
  nnghbr (this line4_done) = 2 /\
  cell (table line4_done) 0 (slot_index (-1, 0, 0)) = Some no_neighbor.
Proof.
  split; [exact line4_dims_ok|].
  destruct (SetNeighbors_allocates_and_initialises
              (FindNeighbor line4_mesh) GetLeaf no_neighbor
              line4_tree line4_ranks line4_built line4_dims_ok)
    as ((Hn & _) & _ & Hnone).
  split; [exact Hn|].
  apply (Hnone 0 (-1, 0, 0)).
  - in_range.
  - apply list_elem_of_here.
  - vm_compute. reflexivity.
Defined.



Lemma SetNeighbors_slots_all_or_nothing_witness :
  cell (table line4_done) 1 1 =
    Some {| gid := 2; lev := 2; rank := 1; destn := 0 |} /\
  exists d nt,
    d ∈ directions (pmesh (this line4_built)) /\ 1 = slot_index d /\
    search (FindNeighbor line4_mesh) line4_tree
           (block_loc (this line4_built) 1) d = Some nt /\
    2 = gid_ (recorded_node GetLeaf d nt).
Proof.
  assert (cell (table line4_done) 1 1 =
          Some {| gid := 2; lev := 2; rank := 1; destn := 0 |}) as Hc
    by (vm_compute; reflexivity).
  split; [exact Hc|]. 
  destruct (SetNeighbors_slots_all_or_nothing
              (FindNeighbor line4_mesh) GetLeaf no_neighbor
              line4_tree line4_ranks line4_built 1 1
              {| gid := 2; lev := 2; rank := 1; destn := 0 |} Hc)
    as [Hno|(d & nt & Hd & Hs & Hf & Hg & _)].
  - discriminate Hno.
  - exists d, nt. exact (conj Hd (conj Hs (conj Hf Hg))).
Defined.

Lemma neighbor_slots_reciprocal_witness :
  exists eB eN,
    cell (table line4_done) 1 (slot_index (1, 0, 0)) = Some eB /\
    gid eB = 2 /\
    cell (table line4_done) 2 (destn eB) = Some eN /\
    gid eN = 1 /\ destn eN = slot_index (1, 0, 0).
Proof.
 
  destruct neighbor_slots_reciprocal as (_ & _ & H).
  specialize (H line4_mesh line4_tree line4_ranks no_neighbor no_neighbor
                line4_built line4_built 1 2 (1, 0, 0)
                (leaf 1 0 0 2 1) (leaf 2 0 0 2 2)).
  cbv zeta in H.
  assert (pmesh (this line4_built) = line4_mesh) as Hpm
    by (vm_compute; reflexivity).
  assert ((1, 0, 0) ∈ directions line4_mesh) as Hd
    by apply list_elem_of_further, list_elem_of_here.
  assert (0 <= 1 < nmb (this line4_built)) as HbB by in_range.
  assert (0 <= 2 < nmb (this line4_built)) as HbN by in_range.
  assert (in_domain line4_mesh (block_loc (this line4_built) 1)) as Hdom
    by (intros []; in_range).
  assert (adjacent line4_mesh (block_loc (this line4_built) 1) (1, 0, 0)
            (block_loc (this line4_built) 2)) as Hadj
    by (split; [vm_compute; reflexivity|]; intros []; vm_compute; reflexivity).
  assert (FindLeaf line4_tree (block_loc (this line4_built) 1) =
          Some (leaf 1 0 0 2 1)) as HfB by (vm_compute; reflexivity).
  assert (FindLeaf line4_tree (block_loc (this line4_built) 2) =
          Some (leaf 2 0 0 2 2)) as HfN by (vm_compute; reflexivity).
  assert (gid_ (leaf 1 0 0 2 1) = block_gid (this line4_built) 1) as HgB
    by (vm_compute; reflexivity).
  assert (gid_ (leaf 2 0 0 2 2) = block_gid (this line4_built) 2) as HgN
    by (vm_compute; reflexivity).
  destruct (H Hpm Hpm line4_dims_ok Hd HbB HbN Hdom Hadj HfB eq_refl HgB
              HfN eq_refl HgN) as (eB & eN & H1 & H2 & H3 & H4 & H5).
  exists eB, eN. rewrite H2, H4.
  split; [exact H1|]. split; [vm_compute; reflexivity|].
  split; [exact H3|]. split; [vm_compute; reflexivity|exact H5].
Defined.

Lemma boundary_is_no_neighbor_witness :
  leaves_domain line4_mesh (block_loc (this line4_built) 0) (-1, 0, 0) /\
  search (FindNeighbor line4_mesh) line4_tree
         (block_loc (this line4_built) 0) (-1, 0, 0) = None /\
  in_sync (nghbr (this line4_done)) /\
  cell (table line4_done) 0 (slot_index (-1, 0, 0)) = Some no_neighbor.
Proof.
  assert (leaves_domain line4_mesh (block_loc (this line4_built) 0) (-1, 0, 0))
    as Hout.
  { exists X1. split; [discriminate|]. split; [|reflexivity].
    vm_compute. intros [H _]. apply H. reflexivity. }
  split; [exact Hout|].
  apply (boundary_is_no_neighbor line4_mesh line4_tree line4_ranks no_neighbor
           line4_built 0 (-1, 0, 0)).
  - vm_compute; reflexivity.
  - exact line4_dims_ok.
  - in_range.
  - apply list_elem_of_here.
  - exact Hout.
Defined.

(** ** More about the constructor *)

Lemma ctor_block_lists pm igids m w :
  mbgid (this (exec (ctor_block pm igids m) w)) =
    dual_write_host (wr1 m (fun _ => igids + m)) (mbgid (this w)) /\
  mblev (this (exec (ctor_block pm igids m) w)) =
    dual_write_host (wr1 m (fun _ => level (lloclist pm (igids + m))))
                    (mblev (this w)) /\
  nmb (this (exec (ctor_block pm igids m) w)) = nmb (this w) /\
  pmesh (this (exec (ctor_block pm igids m) w)) = pmesh (this w).
Proof.
  unfold ctor_block. cbv zeta. rewrite !exec_seq.
  repeat match goal with
  | |- context [exec (if ?c then _ else _) _] => rewrite (exec_if c)
  end.
  destruct (lx1 (lloclist pm (igids + m)) =? 0),
    (lx1 (lloclist pm (igids + m)) =?
       wrap32 (shl32 (nmb_rootx1 pm)
                 (level (lloclist pm (igids + m)) - root_level pm) - 1)),
    (nx2 pm =? 1), (nx3 pm =? 1),
    (lx2 (lloclist pm (igids + m)) =? 0),
    (lx2 (lloclist pm (igids + m)) =?
       wrap32 (shl32 (nmb_rootx2 pm)
                 (level (lloclist pm (igids + m)) - root_level pm) - 1)),
    (lx3 (lloclist pm (igids + m)) =? 0),
    (lx3 (lloclist pm (igids + m)) =?
       wrap32 (shl32 (nmb_rootx3 pm)
                 (level (lloclist pm (igids + m)) - root_level pm) - 1));
    repeat split; reflexivity.
Qed.

(** A loop that assigns [g m] to element [m], for the indices of [ms]. *)
Lemma fold_wr1_lookup {A} (g : Z -> A) (ms : list Z) (a : list A) (k : nat) :
  fold_left (fun a m => wr1 m (fun _ => g m) a) ms a !! k =
  if decide (Z.of_nat k ∈ ms) then (fun _ => g (Z.of_nat k)) <$> a !! k
  else a !! k.
Proof.
  revert a. induction ms as [|m ms IH]; intros a; cbn [fold_left].
  - rewrite decide_False by apply not_elem_of_nil. reflexivity.
  - rewrite IH, wr1_lookup.
    destruct (decide (m = Z.of_nat k)) as [->|Hne].
    + rewrite bool_decide_eq_true_2 by lia.
      rewrite (decide_True (P := Z.of_nat k ∈ Z.of_nat k :: ms))
        by apply list_elem_of_here.
      destruct (decide (Z.of_nat k ∈ ms)); destruct (a !! k); reflexivity.
    + rewrite bool_decide_eq_false_2 by lia.
      destruct (decide (Z.of_nat k ∈ ms)) as [Hin|Hnin].
      * rewrite decide_True by (apply list_elem_of_further, Hin). reflexivity.
      * rewrite decide_False; [reflexivity|].
        rewrite elem_of_cons. intros [Heq|Hin]; [|exact (Hnin Hin)].
        apply Hne. symmetry. exact Heq.
Qed.

Lemma fold_wr1_seqZ {A} (g : Z -> A) (n : Z) (x : A) :
  fold_left (fun a m => wr1 m (fun _ => g m) a) (seqZ 0 n)
            (replicate (Z.to_nat n) x) = g <$> seqZ 0 n.
Proof.
  apply list_eq. intros k. rewrite fold_wr1_lookup, list_lookup_fmap.
  destruct (decide (Z.of_nat k < n)) as [Hk|Hk].
  - rewrite decide_True by (apply elem_of_seqZ; lia).
    rewrite lookup_replicate_2 by lia.
    rewrite lookup_seqZ_lt by lia. reflexivity.
  - rewrite decide_False by (rewrite elem_of_seqZ; lia).
    rewrite lookup_seqZ_ge by lia.
    apply lookup_replicate_None. lia.
Qed.

Lemma ctor_blocks_lists pm igids (ms : list Z) w :
  let w' := fold_left (fun w x => exec (ctor_block pm igids x) w) ms w in
  mbgid (this w') =
    dual_write_host
      (fun a => fold_left (fun a m => wr1 m (fun _ => igids + m) a) ms a)
      (mbgid (this w)) /\
  mblev (this w') =
    dual_write_host
      (fun a => fold_left
         (fun a m => wr1 m (fun _ => level (lloclist pm (igids + m))) a) ms a)
      (mblev (this w)).
Proof.
  cbv zeta. revert w. induction ms as [|m ms IH]; intros w; cbn [fold_left].
  - destruct (mbgid (this w)), (mblev (this w)). split; reflexivity.
  - destruct (IH (exec (ctor_block pm igids m) w)) as [-> ->].
    destruct (ctor_block_lists pm igids m w) as (-> & -> & _).
    split; reflexivity.
Qed.

Lemma ctor_lists_facts fresh pm igids n w :
  let mb := this (exec (MeshBlock_ctor fresh pm igids n) w) in
  h_view (mbgid mb) = (fun m => igids + m) <$> seqZ 0 n /\
  h_view (mblev mb) = (fun m => level (lloclist pm (igids + m))) <$> seqZ 0 n /\
  in_sync (mbgid mb) /\ in_sync (mblev mb) /\
  nmb mb = n /\ pmesh mb = pm.
Proof.
  cbv zeta. unfold MeshBlock_ctor.
  rewrite !exec_seq, !exec_update. cbn [this].
  rewrite exec_for_each.
  destruct (ctor_blocks_lists pm igids (seqZ 0 n)
              (exec (init_members fresh pm n) w)) as [Hg Hl].
  cbv zeta in Hg, Hl.
  set (w1 := fold_left _ _ _) in *.
  assert (nmb (this w1) = n /\ pmesh (this w1) = pm) as [Hnmb Hpm].
  { subst w1.
    apply (fold_left_preserves (fun w => nmb (this w) = n /\ pmesh (this w) = pm)).
    - intros w' m [H1 H2].
      destruct (ctor_block_lists pm igids m w') as (_ & _ & -> & ->). auto.
    - split; reflexivity. }
  unfold init_members in Hg, Hl. rewrite exec_update in Hg, Hl.
  cbn [this mbgid mblev] in Hg, Hl.
  unfold dual_write_host, dual_alloc in Hg, Hl.
  cbn [h_view d_view modified_host] in Hg, Hl.
  rewrite (fold_wr1_seqZ (fun m => igids + m)) in Hg.
  rewrite (fold_wr1_seqZ (fun m => level (lloclist pm (igids + m)))) in Hl.
  unfold with_mbgid, with_mblev, in_sync. cbn. rewrite Hg, Hl. cbn.
  repeat split; assumption.
Qed.

(** X1. After the constructor the gid list of the pack counts up from
    [igids], the level list holds the level of each of those blocks in
    [lloclist], and both are synchronised: the device copy equals the host
    copy and no modification is pending. *)
Theorem ctor_gids_and_levels fresh pm igids n w :
  0 <= n ->
  let mb := this (exec (MeshBlock_ctor fresh pm igids n) w) in
  h_view (mbgid mb) = (fun m => igids + m) <$> seqZ 0 n /\
  h_view (mblev mb) = (fun m => level (lloclist pm (igids + m))) <$> seqZ 0 n /\
  in_sync (mbgid mb) /\ in_sync (mblev mb) /\
  nmb mb = n /\ pmesh mb = pm.
Proof. intros _. apply ctor_lists_facts. Qed.

Lemma ctor_mbbcs_shape fresh pm igids n w :
  length <$> mbbcs (this (exec (MeshBlock_ctor fresh pm igids n) w)) =
  replicate (Z.to_nat n) 6%nat.
Proof.
  unfold MeshBlock_ctor. rewrite !exec_seq, !exec_update.
  cbn [this mbbcs with_mbgid with_mblev]. rewrite exec_for_each.
  apply (fold_left_preserves
           (fun w => length <$> mbbcs (this w) = replicate (Z.to_nat n) 6%nat)).
  - intros w' m Hw'. rewrite ctor_block_mbbcs, set_faces_shape. exact Hw'.
  - unfold init_members. rewrite exec_update. cbn [this mbbcs].
    rewrite fmap_replicate, length_replicate. reflexivity.
Qed.

Lemma face_of_index (k : Z) :
  0 <= k < 6 -> exists f, k = face_index f.
Proof.
  intros Hk.
  assert (k = 0 \/ k = 1 \/ k = 2 \/ k = 3 \/ k = 4 \/ k = 5)
    as [->|[->|[->|[->|[->| ->]]]]] by lia.
  - exists inner_x1. reflexivity.
  - exists outer_x1. reflexivity.
  - exists inner_x2. reflexivity.
  - exists outer_x2. reflexivity.
  - exists inner_x3. reflexivity.
  - exists outer_x3. reflexivity.
Qed.

Lemma face_flag_cases pm loc f :
  face_flag pm loc f = mesh_bcs pm f \/ face_flag pm loc f = block.
Proof.
  destruct f; cbn [face_flag];
    repeat match goal with
    | |- context [if ?c then _ else _] => destruct c
    end; auto.
Qed.

(** X2. The constructor leaves one row of six flags for each block of the
    pack and no other row, and it assigns every one of them: each flag is
    the condition the mesh configures for that face, or [block]; nothing of
    what the allocation held remains. *)
Theorem ctor_flags_all_assigned fresh pm igids n w :
  0 <= n ->
  let mb := this (exec (MeshBlock_ctor fresh pm igids n) w) in
  length (mbbcs mb) = Z.to_nat n /\
  (forall row, row ∈ mbbcs mb -> length row = 6%nat) /\
  (forall m k, is_Some (cell (mbbcs mb) m k) <-> (0 <= m < n /\ 0 <= k < 6)) /\
  (forall m f flag, cell (mbbcs mb) m (face_index f) = Some flag ->
     flag = mesh_bcs pm f \/ flag = block).
Proof.
  intros Hn. cbv zeta.
  assert (length (mbbcs (this (exec (MeshBlock_ctor fresh pm igids n) w))) =
            Z.to_nat n /\
          forall row,
            row ∈ mbbcs (this (exec (MeshBlock_ctor fresh pm igids n) w)) ->
            length row = 6%nat) as [Hlen Hrows].
  { pose proof (ctor_mbbcs_shape fresh pm igids n w) as Hsh. split.
    - rewrite <- (length_fmap length), Hsh. apply length_replicate.
    - intros r Hr. apply list_elem_of_lookup in Hr as [i Hi].
      assert ((length <$> mbbcs (this (exec (MeshBlock_ctor fresh pm igids n) w)))
                !! i = Some (length r)) as Hl
        by (rewrite list_lookup_fmap, Hi; reflexivity).
      rewrite Hsh in Hl. apply lookup_replicate in Hl as [-> _]. reflexivity. }
  assert (forall m k,
    is_Some (cell (mbbcs (this (exec (MeshBlock_ctor fresh pm igids n) w))) m k)
    <-> (0 <= m < n /\ 0 <= k < 6)) as Hex.
  { intros m k. rewrite (cell_is_Some _ _ _ _ _ Hlen Hrows). lia. }
  split; [exact Hlen|]. split; [exact Hrows|]. split; [exact Hex|].
  intros m f flag Hc.
  assert (0 <= m < n) as Hm by (apply (Hex m (face_index f)); eauto).
  rewrite ctor_face in Hc by exact Hm. injection Hc as <-.
  apply face_flag_cases.
Qed.

(** X14. The flags of a block depend on the mesh and on the block's
    location alone: two constructions over the same mesh give a block at the
    same location the same six flags, whatever the first gid and the size of
    the pack, the place of the block in it, and what the storage held. *)
Theorem ctor_flags_of_location fresh1 fresh2 pm igids1 igids2 n1 n2 w1 w2
    m1 m2 f :
  0 <= m1 < n1 -> 0 <= m2 < n2 ->
  lloclist pm (igids1 + m1) = lloclist pm (igids2 + m2) ->
  cell (mbbcs (this (exec (MeshBlock_ctor fresh1 pm igids1 n1) w1)))
       m1 (face_index f) =
  cell (mbbcs (this (exec (MeshBlock_ctor fresh2 pm igids2 n2) w2)))
       m2 (face_index f).
Proof.
  intros H1 H2 Hloc. rewrite !ctor_face by assumption. rewrite Hloc.
  reflexivity.
Qed.

(** ** More about [SetNeighbors] *)

(** Two tables with the same row lengths and the same cells are equal. *)
Lemma table_ext {A} (a a' : list (list A)) :
  length <$> a = length <$> a' ->
  (forall i j, cell a i j = cell a' i j) -> a = a'.
Proof.
  intros Hsh Hc. apply list_eq. intros i.
  assert (length <$> a !! i = length <$> a' !! i) as Hi
    by (rewrite <- !list_lookup_fmap, Hsh; reflexivity).
  destruct (a !! i) as [r|] eqn:Hr, (a' !! i) as [r'|] eqn:Hr';
    try discriminate; [|reflexivity].
  f_equal. apply list_eq. intros j.
  specialize (Hc (Z.of_nat i) (Z.of_nat j)). unfold cell in Hc.
  destruct (Z.ltb_spec (Z.of_nat i) 0); [lia|].
  destruct (Z.ltb_spec (Z.of_nat j) 0); [lia|].
  cbn [orb] in Hc. rewrite !Nat2Z.id, Hr, Hr' in Hc. exact Hc.
Qed.

Lemma directions_length pm old :
  dims_ok pm -> length (directions pm) = Z.to_nat (nnghbr_of pm old).
Proof.
  unfold nnghbr_of, directions.
  intros [(-> & -> & -> & ->)|[(-> & -> & -> & ->)|(-> & -> & -> & ->)]];
    reflexivity.
Qed.

Lemma bind_length {X Y} (f : X -> list Y) (l : list X) (k : nat) :
  (forall x, length (f x) = k) -> length (l ≫= f) = (length l * k)%nat.
Proof.
  intros Hf. induction l as [|x l IH]; [reflexivity|].
  change ((x :: l) ≫= f) with (f x ++ (l ≫= f)).
  rewrite length_app, Hf, IH. cbn [length]. lia.
Qed.

Lemma opposite_differs d : admitted d -> opposite d <> d.
Proof.
  destruct d as [[n m] l]. intros (Hn & Hm & Hl & Hne) [= H1 H2 H3].
  apply Hne. f_equal; [f_equal|]; lia.
Qed.

Lemma opposite_admitted d : admitted d -> admitted (opposite d).
Proof.
  destruct d as [[n m] l]. intros (Hn & Hm & Hl & Hne).
  repeat split; try lia. intros [= H1 H2 H3]. apply Hne.
  f_equal; [f_equal|]; lia.
Qed.

Section MoreNeighbors.

Variable FN :
  MeshBlockTree -> LogicalLocation -> Z -> Z -> Z -> option MeshBlockTree.
Variable GL : MeshBlockTree -> Z -> Z -> Z -> MeshBlockTree.
Variable fresh : NeighborBlock.

(** A slot of the final table is [no_neighbor] or the entry of the node
    found in the slot's direction. *)
Lemma SetNeighbors_cell_cases ptree ranklist w b s e :
  cell (table (exec (SetNeighbors FN GL fresh ptree ranklist) w)) b s = Some e ->
  e = no_neighbor \/
  exists d nt,
    d ∈ directions (pmesh (this w)) /\ s = slot_index d /\
    search FN ptree (block_loc (this w) b) d = Some nt /\
    e = entry_of GL ranklist d nt.
Proof.
  intros He. apply SetNeighbors_cell_inv in He as (_ & _ & He).
  destruct (decide (s ∈ slot_index <$> directions (pmesh (this w))))
    as [Hin|Hnin].
  - apply list_elem_of_fmap in Hin as (d & -> & Hd).
    rewrite filled_slot in He by (apply directions_NoDup || exact Hd).
    destruct (search FN ptree (block_loc (this w) b) d) as [nt|] eqn:Hs.
    + right. exists d, nt. injection He as <-. auto.
    + left. congruence.
  - left. rewrite filled_untouched in He; [congruence|].
    intros d Hd Heq. apply Hnin. rewrite <- Heq. apply list_elem_of_fmap_2, Hd.
Qed.

(** X3. With consistent flags a call searches the tree once for every slot
    of every block and no more: block after block in the order of the pack,
    from the block's own location, in the directions of the mesh in the order
    of the loops; [nmb * nnghbr] searches in all. *)
Theorem SetNeighbors_one_search_per_slot ptree ranklist w :
  dims_ok (pmesh (this w)) -> 0 <= nmb (this w) ->
  let w' := exec (SetNeighbors FN GL fresh ptree ranklist) w in
  issued w w' =
    (b ← seqZ 0 (nmb (this w));
     (fun d => (block_loc (this w) b, d)) <$> directions (pmesh (this w))) /\
  Z.of_nat (length (issued w w')) = nmb (this w) * nnghbr (this w').
Proof.
  intros Hok Hn. cbv zeta.
  destruct (SetNeighbors_facts FN GL fresh ptree ranklist w)
    as (_ & Hnn & _ & _ & Hse & _).
  assert (issued w (exec (SetNeighbors FN GL fresh ptree ranklist) w) =
    (b ← seqZ 0 (nmb (this w));
     (fun d => (block_loc (this w) b, d)) <$> directions (pmesh (this w))))
    as Hiss by (unfold issued; rewrite Hse, drop_app_length; reflexivity).
  split; [exact Hiss|]. rewrite Hiss, Hnn.
  rewrite (bind_length _ _ (Z.to_nat (nnghbr_of (pmesh (this w)) (nnghbr (this w))))).
  - rewrite length_seqZ.
    assert (0 <= nnghbr_of (pmesh (this w)) (nnghbr (this w))).
    { rewrite (nnghbr_of_dims _ _ Hok).
      destruct (one_d (pmesh (this w))), (two_d (pmesh (this w))); lia. }
    lia.
  - intros b. rewrite length_fmap. apply directions_length, Hok.
Qed.

(** X4. The x1 faces.  When the search towards -x1 (towards +x1) finds a
    node with children, slot 0 (slot 1) holds the gid, the level and the rank
    of the child [GetLeaf(1,0,0)] (of [GetLeaf(0,0,0)]), the one on the side
    facing the block; when it finds a leaf, those of the leaf.  [destn] is
    the other of the two slots. *)
Theorem SetNeighbors_x1_faces ptree ranklist w b nt :
  dims_ok (pmesh (this w)) -> 0 <= b < nmb (this w) ->
  let w' := exec (SetNeighbors FN GL fresh ptree ranklist) w in
  let record nd d :=
    Some {| gid := gid_ nd; lev := level (loc_ nd);
            rank := ranklist (gid_ nd); destn := d |} in
  (FN ptree (block_loc (this w) b) (-1) 0 0 = Some nt ->
     cell (table w') b 0 =
     match pleaf_ nt with
     | Some _ => record (GL nt 1 0 0) 1
     | None => record nt 1
     end) /\
  (FN ptree (block_loc (this w) b) 1 0 0 = Some nt ->
     cell (table w') b 1 =
     match pleaf_ nt with
     | Some _ => record (GL nt 0 0 0) 0
     | None => record nt 0
     end).
Proof.
  intros Hok Hb. cbv zeta. split; intros Hs.
  - pose proof (SetNeighbors_slot FN GL fresh ptree ranklist w b (-1, 0, 0)
                  Hok Hb (list_elem_of_here _ _)) as H.
    change (slot_index (-1, 0, 0)) with 0 in H. rewrite H.
    cbn [search]. rewrite Hs. unfold entry_of, recorded_node.
    cbn [Z.eqb andb]. destruct (pleaf_ nt); reflexivity.
  - pose proof (SetNeighbors_slot FN GL fresh ptree ranklist w b (1, 0, 0)
                  Hok Hb (list_elem_of_further _ _ _ (list_elem_of_here _ _)))
      as H.
    change (slot_index (1, 0, 0)) with 1 in H. rewrite H.
    cbn [search]. rewrite Hs. unfold entry_of, recorded_node.
    cbn [Z.eqb andb]. destruct (pleaf_ nt); reflexivity.
Qed.

(** X5. The [destn] of a filled slot is a slot of the table of any pack of
    the same mesh: it is below [nnghbr], it is not the slot itself, and it
    is the slot of the opposite direction, which the mesh searches too. *)
Theorem SetNeighbors_destn_in_table ptree ranklist w b s e :
  dims_ok (pmesh (this w)) ->
  cell (table (exec (SetNeighbors FN GL fresh ptree ranklist) w)) b s = Some e ->
  e <> no_neighbor ->
  0 <= destn e < nnghbr (this (exec (SetNeighbors FN GL fresh ptree ranklist) w)) /\
  destn e <> s /\
  exists d, d ∈ directions (pmesh (this w)) /\
            opposite d ∈ directions (pmesh (this w)) /\
            s = slot_index d /\ destn e = slot_index (opposite d).
Proof.
  intros Hok He Hne.
  destruct (SetNeighbors_facts FN GL fresh ptree ranklist w) as (_ & Hnn & _).
  destruct (SetNeighbors_cell_cases ptree ranklist w b s e He)
    as [?|(d & nt & Hd & -> & _ & ->)]; [contradiction|].
  assert (destn (entry_of GL ranklist d nt) = slot_index (opposite d)) as Hdest
    by reflexivity.
  pose proof (directions_opposite _ _ Hd) as Hopp.
  pose proof (directions_admitted _ _ Hd) as Had.
  rewrite Hdest, Hnn. split; [|split].
  - split; [apply (directions_slot_range _ _ Hopp)|].
    apply directions_slot_lt; assumption.
  - intros Heq. apply (opposite_differs d Had).
    apply slot_index_inj; [apply opposite_admitted, Had|exact Had|exact Heq].
  - exists d. auto.
Qed.

(** X6. Every slot of the table belongs to exactly one direction of the
    mesh, and the search in that direction alone decides it: the slot holds
    the entry of the node found, or [no_neighbor] when nothing is found. *)
Theorem SetNeighbors_slot_owner ptree ranklist w b s :
  dims_ok (pmesh (this w)) -> 0 <= b < nmb (this w) ->
  0 <= s < nnghbr (this (exec (SetNeighbors FN GL fresh ptree ranklist) w)) ->
  exists d,
    d ∈ directions (pmesh (this w)) /\ slot_index d = s /\
    (forall d', d' ∈ directions (pmesh (this w)) -> slot_index d' = s -> d' = d) /\
    cell (table (exec (SetNeighbors FN GL fresh ptree ranklist) w)) b s =
    Some (match search FN ptree (block_loc (this w) b) d with
          | Some nt => entry_of GL ranklist d nt
          | None => no_neighbor
          end).
Proof.
  intros Hok Hb Hs.
  destruct (SetNeighbors_facts FN GL fresh ptree ranklist w) as (_ & Hnn & _).
  rewrite Hnn in Hs.
  destruct (slot_has_direction _ _ _ Hok Hs) as (d & Hd & <-).
  exists d. split; [exact Hd|]. split; [reflexivity|]. split.
  - intros d' Hd' Heq.
    apply slot_index_inj; [eapply directions_admitted; exact Hd'| |exact Heq].
    eapply directions_admitted; exact Hd.
  - apply SetNeighbors_slot; assumption.
Qed.

(** Every cell of the final table, inside and outside the extents. *)
Lemma SetNeighbors_cell_total ptree ranklist w b s :
  cell (table (exec (SetNeighbors FN GL fresh ptree ranklist) w)) b s =
  if bool_decide (0 <= b < nmb (this w) /\
                  0 <= s < nnghbr_of (pmesh (this w)) (nnghbr (this w)))
  then filled FN GL ptree ranklist (block_loc (this w) b)
              (directions (pmesh (this w))) s (Some no_neighbor)
  else None.
Proof.
  destruct (SetNeighbors_facts FN GL fresh ptree ranklist w)
    as (_ & _ & Hsh & _ & _ & Hc).
  apply shape_extents in Hsh as [Hlen Hrows].
  case_bool_decide as Hin.
  - apply Hc; apply Hin.
  - destruct (cell _ b s) as [e|] eqn:He; [|reflexivity].
    exfalso. apply Hin.
    assert (is_Some (cell (table (exec (SetNeighbors FN GL fresh ptree ranklist) w))
                          b s)) as Hs by eauto.
    apply (cell_is_Some _ _ _ _ _ Hlen Hrows) in Hs. lia.
Qed.

Lemma MeshBlock_eq (mb mb' : MeshBlock) :
  same_frame mb mb' -> nnghbr mb' = nnghbr mb -> nghbr mb' = nghbr mb ->
  mb' = mb.
Proof.
  destruct mb, mb'. unfold same_frame. cbn.
  intros (-> & -> & -> & -> & -> & ->) -> ->. reflexivity.
Qed.

Lemma DualArray_eq {A} (d d' : DualArray A) :
  in_sync d -> in_sync d' -> h_view d = h_view d' -> d = d'.
Proof.
  destruct d, d'. unfold in_sync. cbn. intros [-> ->] [-> ->] ->. reflexivity.
Qed.

(** X7. The table is built from scratch.  With consistent flags, [nnghbr]
    and both copies of [nghbr] after a call depend only on the mesh, the
    number of blocks and the gid list of the object, not on what [nnghbr] and
    [nghbr] held before; so a second call with the same tree and rank list
    changes nothing. *)
Theorem SetNeighbors_rebuilds_from_scratch ptree ranklist w1 w2 :
  dims_ok (pmesh (this w1)) ->
  pmesh (this w2) = pmesh (this w1) -> nmb (this w2) = nmb (this w1) ->
  h_view (mbgid (this w2)) = h_view (mbgid (this w1)) ->
  let run := exec (SetNeighbors FN GL fresh ptree ranklist) in
  nnghbr (this (run w2)) = nnghbr (this (run w1)) /\
  nghbr (this (run w2)) = nghbr (this (run w1)) /\
  this (run (run w1)) = this (run w1).
Proof.
  intros Hok Hpm Hnmb Hgid. cbv zeta.
  assert (forall wa wb,
    dims_ok (pmesh (this wa)) ->
    pmesh (this wb) = pmesh (this wa) -> nmb (this wb) = nmb (this wa) ->
    h_view (mbgid (this wb)) = h_view (mbgid (this wa)) ->
    nnghbr (this (exec (SetNeighbors FN GL fresh ptree ranklist) wb)) =
      nnghbr (this (exec (SetNeighbors FN GL fresh ptree ranklist) wa)) /\
    nghbr (this (exec (SetNeighbors FN GL fresh ptree ranklist) wb)) =
      nghbr (this (exec (SetNeighbors FN GL fresh ptree ranklist) wa))) as Hind.
  { intros wa wb Hoka Hp Hn Hg.
    assert (dims_ok (pmesh (this wb))) as Hokb by (rewrite Hp; exact Hoka).
    destruct (SetNeighbors_facts FN GL fresh ptree ranklist wa)
      as (_ & Hna & Hsha & Hsya & _).
    destruct (SetNeighbors_facts FN GL fresh ptree ranklist wb)
      as (_ & Hnb & Hshb & Hsyb & _).
    assert (nnghbr_of (pmesh (this wb)) (nnghbr (this wb)) =
            nnghbr_of (pmesh (this wa)) (nnghbr (this wa))) as Hnn
      by (rewrite !nnghbr_of_dims, Hp by assumption; reflexivity).
    split; [congruence|].
    apply DualArray_eq; [assumption..|].
    apply table_ext.
    - fold (table (exec (SetNeighbors FN GL fresh ptree ranklist) wb)).
      fold (table (exec (SetNeighbors FN GL fresh ptree ranklist) wa)).
      fold (shape (exec (SetNeighbors FN GL fresh ptree ranklist) wb)).
      fold (shape (exec (SetNeighbors FN GL fresh ptree ranklist) wa)).
      rewrite Hsha, Hshb, Hnn, Hn. reflexivity.
    - intros b s.
      pose proof (SetNeighbors_cell_total ptree ranklist wa b s) as Ha.
      pose proof (SetNeighbors_cell_total ptree ranklist wb b s) as Hb.
      unfold table in Ha, Hb. rewrite Ha, Hb, Hnn, Hn, Hp.
      unfold block_loc. rewrite Hg, Hp. reflexivity. }
  destruct (Hind w1 w2 Hok Hpm Hnmb Hgid) as [H1 H2].
  split; [exact H1|]. split; [exact H2|].
  destruct (SetNeighbors_facts FN GL fresh ptree ranklist w1) as (HF & _).
  destruct (SetNeighbors_facts FN GL fresh ptree ranklist
              (exec (SetNeighbors FN GL fresh ptree ranklist) w1)) as (HF' & _).
  destruct (Hind w1 (exec (SetNeighbors FN GL fresh ptree ranklist) w1) Hok)
    as [H3 H4]; try apply HF.
  { destruct HF as (_ & _ & -> & _). reflexivity. }
  apply MeshBlock_eq; assumption.
Qed.

(** X8. The row of a block does not depend on the pack it is in: in two
    packs of one mesh with consistent flags, two blocks at the same location
    get the same slots, whatever their places in the packs and whatever else
    the packs hold. *)
Theorem SetNeighbors_row_of_location
    ptree ranklist w1 w2 b1 b2 s :
  dims_ok (pmesh (this w1)) -> pmesh (this w2) = pmesh (this w1) ->
  0 <= b1 < nmb (this w1) -> 0 <= b2 < nmb (this w2) ->
  block_loc (this w2) b2 = block_loc (this w1) b1 ->
  cell (table (exec (SetNeighbors FN GL fresh ptree ranklist) w2)) b2 s =
  cell (table (exec (SetNeighbors FN GL fresh ptree ranklist) w1)) b1 s.
Proof.
  intros Hok Hpm Hb1 Hb2 Hloc.
  assert (dims_ok (pmesh (this w2))) as Hok2 by (rewrite Hpm; exact Hok).
  rewrite !SetNeighbors_cell_total, Hloc, Hpm.
  rewrite (nnghbr_of_dims _ (nnghbr (this w2)) Hok).
  rewrite (nnghbr_of_dims _ (nnghbr (this w1)) Hok).
  repeat case_bool_decide; try reflexivity; exfalso; lia.
Qed.

Lemma filled_ranks ptree rl1 rl2 loc dirs s c1 c2 :
  put_rank 0 <$> c1 = put_rank 0 <$> c2 ->
  put_rank 0 <$> filled FN GL ptree rl1 loc dirs s c1 =
  put_rank 0 <$> filled FN GL ptree rl2 loc dirs s c2.
Proof.
  unfold filled. revert c1 c2.
  induction dirs as [|d dirs IH]; intros c1 c2 Hc; cbn [fold_left];
    [exact Hc|].
  apply IH. destruct (decide (slot_index d = s)); [|exact Hc].
  destruct (search FN ptree loc d) as [nt|]; [|exact Hc].
  destruct c1, c2; try discriminate; reflexivity.
Qed.

(** X9. The rank list only stamps the slots: two calls that differ in the
    rank list alone issue the same searches and fill the same slots with the
    same gid, level and [destn]; only the [rank] fields can differ. *)
Theorem SetNeighbors_rank_list_only_ranks ptree rl1 rl2 w :
  let w1 := exec (SetNeighbors FN GL fresh ptree rl1) w in
  let w2 := exec (SetNeighbors FN GL fresh ptree rl2) w in
  searches w1 = searches w2 /\
  nnghbr (this w1) = nnghbr (this w2) /\
  forall b s,
    put_rank 0 <$> cell (table w1) b s = put_rank 0 <$> cell (table w2) b s.
Proof.
  cbv zeta.
  destruct (SetNeighbors_facts FN GL fresh ptree rl1 w)
    as (_ & Hn1 & _ & _ & Hs1 & _).
  destruct (SetNeighbors_facts FN GL fresh ptree rl2 w)
    as (_ & Hn2 & _ & _ & Hs2 & _).
  split; [congruence|]. split; [congruence|].
  intros b s. rewrite !SetNeighbors_cell_total.
  case_bool_decide; [|reflexivity]. apply filled_ranks. reflexivity.
Qed.

End MoreNeighbors.

Lemma filled_searches_agree FN1 FN2 GL ptree ranklist loc dirs s c :
  (forall d, d ∈ dirs -> search FN1 ptree loc d = search FN2 ptree loc d) ->
  filled FN1 GL ptree ranklist loc dirs s c =
  filled FN2 GL ptree ranklist loc dirs s c.
Proof.
  intros H. unfold filled. apply fold_left_ext_in. intros c' d Hd.
  rewrite (H d Hd). reflexivity.
Qed.

(** X10. A call consults the tree only through the searches from the
    locations of its own blocks in the directions of its mesh: two tree
    searches that agree there leave the same object and the same record of
    searches, whatever they answer anywhere else. *)
Theorem SetNeighbors_reads_tree_locally FN1 FN2 GL fresh ptree ranklist w :
  dims_ok (pmesh (this w)) ->
  (forall b d, 0 <= b < nmb (this w) -> d ∈ directions (pmesh (this w)) ->
     search FN1 ptree (block_loc (this w) b) d =
     search FN2 ptree (block_loc (this w) b) d) ->
  exec (SetNeighbors FN1 GL fresh ptree ranklist) w =
  exec (SetNeighbors FN2 GL fresh ptree ranklist) w.
Proof.
  intros Hok Hag.
  destruct (SetNeighbors_facts FN1 GL fresh ptree ranklist w)
    as (HF1 & Hn1 & Hsh1 & Hsy1 & Hse1 & _).
  destruct (SetNeighbors_facts FN2 GL fresh ptree ranklist w)
    as (HF2 & Hn2 & Hsh2 & Hsy2 & Hse2 & _).
  assert (this (exec (SetNeighbors FN1 GL fresh ptree ranklist) w) =
          this (exec (SetNeighbors FN2 GL fresh ptree ranklist) w)) as Hthis.
  { apply MeshBlock_eq.
    - destruct HF1 as (?&?&?&?&?&?), HF2 as (?&?&?&?&?&?).
      repeat split; congruence.
    - congruence.
    - apply DualArray_eq; [assumption..|]. apply table_ext.
      + fold (table (exec (SetNeighbors FN1 GL fresh ptree ranklist) w)).
        fold (table (exec (SetNeighbors FN2 GL fresh ptree ranklist) w)).
        fold (shape (exec (SetNeighbors FN1 GL fresh ptree ranklist) w)).
        fold (shape (exec (SetNeighbors FN2 GL fresh ptree ranklist) w)).
        congruence.
      + intros b s.
        pose proof (SetNeighbors_cell_total FN1 GL fresh ptree ranklist w b s)
          as H1.
        pose proof (SetNeighbors_cell_total FN2 GL fresh ptree ranklist w b s)
          as H2.
        unfold table in H1, H2. rewrite H1, H2.
        case_bool_decide as Hin; [|reflexivity].
        apply filled_searches_agree. intros d Hd. apply Hag; [apply Hin|exact Hd]. }
  destruct (exec (SetNeighbors FN1 GL fresh ptree ranklist) w) as [t1 s1],
    (exec (SetNeighbors FN2 GL fresh ptree ranklist) w) as [t2 s2].
  cbn in *. congruence.
Qed.

(** X11. Construction followed by [SetNeighbors].  Row [b] of the neighbour
    table and row [b] of the boundary flags describe the same block, the one
    with gid [igids + b]: its searches start from [lloclist[igids + b]], the
    flags set by the constructor are still in place, and [nnghbr] is the
    count of the mesh. *)
Theorem ctor_then_SetNeighbors FN GL fresh_flag fresh pm igids n ptree ranklist
    w b d f :
  dims_ok pm -> 0 <= b < n -> d ∈ directions pm ->
  let w1 := exec (MeshBlock_ctor fresh_flag pm igids n) w in
  let w2 := exec (SetNeighbors FN GL fresh ptree ranklist) w1 in
  block_gid (this w2) b = igids + b /\
  cell (table w2) b (slot_index d) =
    Some (match search FN ptree (lloclist pm (igids + b)) d with
          | Some nt => entry_of GL ranklist d nt
          | None => no_neighbor
          end) /\
  cell (mbbcs (this w2)) b (face_index f) =
    Some (face_flag pm (lloclist pm (igids + b)) f) /\
  nnghbr (this w2) = (if one_d pm then 2 else if two_d pm then 8 else 26).
Proof.
  intros Hok Hb Hd. cbv zeta.
  destruct (ctor_lists_facts fresh_flag pm igids n w)
    as (Hg & _ & _ & _ & Hnmb & Hpm).
  set (w1 := exec (MeshBlock_ctor fresh_flag pm igids n) w) in *.
  destruct (SetNeighbors_facts FN GL fresh ptree ranklist w1)
    as ((_ & _ & Hgid & _ & Hbcs & _) & Hnn & _).
  assert (rd1 0 (h_view (mbgid (this w1))) b = igids + b) as Hrd.
  { unfold rd1. destruct (Z.ltb_spec b 0); [lia|].
    rewrite Hg, list_lookup_fmap, lookup_seqZ_lt by lia.
    cbn. f_equal. lia. }
  split; [|split; [|split]].
  - unfold block_gid. rewrite Hgid. exact Hrd.
  - rewrite SetNeighbors_slot by (rewrite ?Hpm, ?Hnmb; assumption).
    unfold block_loc. rewrite Hpm, Hrd. reflexivity.
  - rewrite Hbcs. subst w1. apply ctor_face. exact Hb.
  - rewrite Hnn, Hpm. apply nnghbr_of_dims, Hok.
Qed.


(** X13. [nnghbr] by the flags alone, consistent or not: the three tests
    run in turn, so [three_d] wins over [two_d] and [two_d] over [one_d], and
    when no flag is set [nnghbr] keeps the value it had before the call, and
    the table is allocated with that many slots. *)
Theorem SetNeighbors_nnghbr_by_flags FN GL fresh ptree ranklist w :
  let pm := pmesh (this w) in
  let w' := exec (SetNeighbors FN GL fresh ptree ranklist) w in
  (three_d pm = true -> nnghbr (this w') = 26) /\
  (three_d pm = false -> two_d pm = true -> nnghbr (this w') = 8) /\
  (three_d pm = false -> two_d pm = false -> one_d pm = true ->
     nnghbr (this w') = 2) /\
  (three_d pm = false -> two_d pm = false -> one_d pm = false ->
     nnghbr (this w') = nnghbr (this w)) /\
  (forall row, row ∈ table w' -> Z.of_nat (length row) = Z.max 0 (nnghbr (this w'))).
Proof.
  cbv zeta.
  destruct (SetNeighbors_facts FN GL fresh ptree ranklist w)
    as (_ & Hnn & Hsh & _).
  apply shape_extents in Hsh as [_ Hrows]. rewrite Hnn. unfold nnghbr_of.
  repeat split.
  - intros ->. reflexivity.
  - intros -> ->. reflexivity.
  - intros -> -> ->. reflexivity.
  - intros -> -> ->. reflexivity.
  - intros row Hrow. rewrite (Hrows row Hrow). unfold nnghbr_of. lia.
Qed.

(** ** The further statements at the examples *)

Module MoreExamples.

Import BlockTree Examples.

(** The last two blocks of the line of four, as a pack of their own. *)
Definition line4_tail_built : World :=
  exec (MeshBlock_ctor block line4_mesh 2 2) raw.

(** A tree search that agrees with the modelled one along x1 and answers
    with a node for any other direction. *)
Definition along_x1_only (t : MeshBlockTree) (lc : LogicalLocation)
    (n m l : Z) : option MeshBlockTree :=
  if (m =? 0) && (l =? 0) then FindNeighbor line4_mesh t lc n m l
  else Some no_node.

End MoreExamples.

Import MoreExamples.

Lemma line4_built_pmesh : pmesh (this line4_built) = line4_mesh.
Proof. vm_compute. reflexivity. Qed.

Lemma line4_built_dims_ok : dims_ok (pmesh (this line4_built)).
Proof. left. repeat split; vm_compute; reflexivity. Qed.

Lemma ctor_gids_and_levels_witness :
  0 <= 4 /\
  h_view (mbgid (this (exec (MeshBlock_ctor undef line4_mesh 0 4) raw))) =
    (fun m => 0 + m) <$> seqZ 0 4 /\
  in_sync (mbgid (this (exec (MeshBlock_ctor undef line4_mesh 0 4) raw))).
Proof.
  split; [lia|].
  destruct (ctor_gids_and_levels undef line4_mesh 0 4 raw ltac:(lia))
    as (Hg & _ & Hs & _).
  exact (conj Hg Hs).
Defined.

Lemma ctor_flags_all_assigned_witness :
  0 <= 4 /\
  length (mbbcs (this (exec (MeshBlock_ctor undef line4_mesh 0 4) raw))) =
    Z.to_nat 4 /\
  (is_Some (cell (mbbcs (this (exec (MeshBlock_ctor undef line4_mesh 0 4) raw)))
                 3 5) <-> (0 <= 3 < 4 /\ 0 <= 5 < 6)).
Proof.
  split; [lia|].
  destruct (ctor_flags_all_assigned undef line4_mesh 0 4 raw ltac:(lia))
    as (Hl & _ & Hex & _).
  exact (conj Hl (Hex 3 5)).
Defined.

Lemma ctor_flags_of_location_witness :
  lloclist line4_mesh (0 + 3) = lloclist line4_mesh (2 + 1) /\
  cell (mbbcs (this (exec (MeshBlock_ctor undef line4_mesh 0 4) raw)))
       3 (face_index outer_x1) =
  cell (mbbcs (this (exec (MeshBlock_ctor block line4_mesh 2 2) raw)))
       1 (face_index outer_x1).
Proof.
  split; [reflexivity|].
  apply (ctor_flags_of_location undef block line4_mesh 0 2 4 2 raw raw 3 1
           outer_x1); [lia | lia | reflexivity].
Defined.

Lemma SetNeighbors_one_search_per_slot_witness :
  Z.of_nat (length (issued line4_built line4_done)) =
  nmb (this line4_built) * nnghbr (this line4_done).
Proof.
  apply (SetNeighbors_one_search_per_slot (FindNeighbor line4_mesh) GetLeaf
           no_neighbor line4_tree line4_ranks line4_built line4_built_dims_ok).
  vm_compute. discriminate.
Defined.

Lemma SetNeighbors_x1_faces_witness :
  cell (table quad_done) 6 0 =
  match pleaf_ quad_refined with
  | Some _ =>
      Some {| gid := gid_ (GetLeaf quad_refined 1 0 0);
              lev := level (loc_ (GetLeaf quad_refined 1 0 0));
              rank := quad_ranks (gid_ (GetLeaf quad_refined 1 0 0));
              destn := 1 |}
  | None =>
      Some {| gid := gid_ quad_refined; lev := level (loc_ quad_refined);
              rank := quad_ranks (gid_ quad_refined); destn := 1 |}
  end.
Proof.
  apply (SetNeighbors_x1_faces (FindNeighbor quad_mesh) GetLeaf no_neighbor
           quad_tree quad_ranks quad_built 6 quad_refined).
  - right; left. repeat split; vm_compute; reflexivity.
  - in_range.
  - vm_compute. reflexivity.
Defined.

Lemma SetNeighbors_destn_in_table_witness :
  0 <= destn {| gid := 2; lev := 2; rank := 1; destn := 0 |} <
    nnghbr (this line4_done) /\
  destn {| gid := 2; lev := 2; rank := 1; destn := 0 |} <> 1.
Proof.
  destruct (SetNeighbors_destn_in_table (FindNeighbor line4_mesh) GetLeaf
              no_neighbor line4_tree line4_ranks line4_built 1 1
              {| gid := 2; lev := 2; rank := 1; destn := 0 |}
              line4_built_dims_ok)
    as (H1 & H2 & _).
  - vm_compute. reflexivity.
  - discriminate.
  - exact (conj H1 H2).
Defined.

Lemma SetNeighbors_slot_owner_witness :
  exists d,
    d ∈ directions (pmesh (this line4_built)) /\ slot_index d = 1 /\
    cell (table line4_done) 1 1 =
    Some (match search (FindNeighbor line4_mesh) line4_tree
                       (block_loc (this line4_built) 1) d with
          | Some nt => entry_of GetLeaf line4_ranks d nt
          | None => no_neighbor
          end).
Proof.
  destruct (SetNeighbors_slot_owner (FindNeighbor line4_mesh) GetLeaf
              no_neighbor line4_tree line4_ranks line4_built 1 1
              line4_built_dims_ok)
    as (d & Hd & Hs & _ & Hc).
  - in_range.
  - in_range.
  - exists d. exact (conj Hd (conj Hs Hc)).
Defined.

Lemma SetNeighbors_rebuilds_from_scratch_witness :
  this (exec (SetNeighbors (FindNeighbor line4_mesh) GetLeaf no_neighbor
                line4_tree line4_ranks) line4_done) =
  this line4_done.
Proof.
  apply (SetNeighbors_rebuilds_from_scratch (FindNeighbor line4_mesh) GetLeaf
           no_neighbor line4_tree line4_ranks line4_built line4_built
           line4_built_dims_ok eq_refl eq_refl eq_refl).
Defined.

Lemma SetNeighbors_row_of_location_witness :
  block_loc (this line4_tail_built) 1 = block_loc (this line4_built) 3 /\
  cell (table (exec (SetNeighbors (FindNeighbor line4_mesh) GetLeaf no_neighbor
                       line4_tree line4_ranks) line4_tail_built)) 1 0 =
  cell (table line4_done) 3 0.
Proof.
  assert (block_loc (this line4_tail_built) 1 = block_loc (this line4_built) 3)
    as Hloc by (vm_compute; reflexivity).
  split; [exact Hloc|].
  apply (SetNeighbors_row_of_location (FindNeighbor line4_mesh) GetLeaf
           no_neighbor line4_tree line4_ranks line4_built line4_tail_built
           3 1 0 line4_built_dims_ok).
  - vm_compute. reflexivity.
  - in_range.
  - in_range.
  - exact Hloc.
Defined.

Lemma SetNeighbors_reads_tree_locally_witness :
  exec (SetNeighbors (FindNeighbor line4_mesh) GetLeaf no_neighbor
          line4_tree line4_ranks) line4_built =
  exec (SetNeighbors along_x1_only GetLeaf no_neighbor
          line4_tree line4_ranks) line4_built.
Proof.
  apply (SetNeighbors_reads_tree_locally (FindNeighbor line4_mesh)
           along_x1_only GetLeaf no_neighbor line4_tree line4_ranks
           line4_built line4_built_dims_ok).
  intros b d _ Hd. rewrite line4_built_pmesh in Hd.
  destruct (directions_line line4_mesh d eq_refl eq_refl Hd) as [Hm Hl].
  destruct d as [[n m] l]. cbn in Hm, Hl. subst m l. reflexivity.
Defined.

Lemma ctor_then_SetNeighbors_witness :
  block_gid (this line4_done) 1 = 0 + 1 /\
  cell (table line4_done) 1 (slot_index (1, 0, 0)) =
    Some (match search (FindNeighbor line4_mesh) line4_tree
                       (lloclist line4_mesh (0 + 1)) (1, 0, 0) with
          | Some nt => entry_of GetLeaf line4_ranks (1, 0, 0) nt
          | None => no_neighbor
          end).
Proof.
  unfold line4_built.
  destruct (ctor_then_SetNeighbors (FindNeighbor line4_mesh) GetLeaf undef
              no_neighbor line4_mesh 0 4 line4_tree line4_ranks raw 1
              (1, 0, 0) inner_x1 line4_dims_ok ltac:(lia)
              (list_elem_of_further _ _ _ (list_elem_of_here _ _)))
    as (H1 & H2 & _).
  exact (conj H1 H2).
Defined.

